(** * Karaoke app: the Express server, its SQLite store, and the ingestion core

    A shallow embedding of [server.js] and [db.js] (the playlist target clamp,
    the playlist-id extraction, the paginated YouTube fetch, the playlist and
    song routes, the songs table), followed by the part of the ingestion
    pipeline that is described by the design documents only (eligibility
    filter, rights state machine, catalog). *)

From Stdlib Require Import ZArith QArith Qround Lia Bool List Ascii String.
From stdpp Require Import gmap strings list fin_maps.

Local Open Scope Z_scope.

(** ** JavaScript values used by the server *)

Module Js.

(** A JavaScript number: an IEEE double is NaN, an infinity, or a finite
    rational.  The sign of zero plays no part in the code modelled here. *)
Inductive Number : Type :=
| NaN
| NegInf
| Fin (q : Q)
| PosInf.

Definition isNaN (x : Number) : bool :=
  match x with NaN => true | _ => false end.

Definition Qlt_bool (a b : Q) : bool := negb (Qle_bool b a).

(** [x < y] of the language: false as soon as one side is NaN. *)
Definition lt (x y : Number) : bool :=
  match x, y with
  | NaN, _ | _, NaN => false
  | _, NegInf => false
  | NegInf, _ => true
  | PosInf, _ => false
  | Fin _, PosInf => true
  | Fin a, Fin b => Qlt_bool a b
  end.

(** [x >= y]: again false on NaN, so it is not the negation of [lt]. *)
Definition ge (x y : Number) : bool :=
  match x, y with
  | NaN, _ | _, NaN => false
  | _, _ => negb (lt x y)
  end.

(** [Math.max(a, b)] and [Math.min(a, b)] with two arguments: NaN is
    contagious, otherwise the running extremum is replaced only by a
    strictly better argument. *)
Definition Math_max (a b : Number) : Number :=
  if isNaN a || isNaN b then NaN else if lt a b then b else a.

Definition Math_min (a b : Number) : Number :=
  if isNaN a || isNaN b then NaN else if lt b a then b else a.

Definition of_Z (z : Z) : Number := Fin (inject_Z z).
Definition of_nat (n : nat) : Number := of_Z (Z.of_nat n).

(** [ToIntegerOrInfinity]: NaN becomes 0, a finite number is rounded
    toward zero, the infinities are kept. *)
Inductive IntOrInf : Type := NegInfinity | Int (z : Z) | PosInfinity.

Definition Qtrunc (q : Q) : Z :=
  if Qle_bool 0 q then Qfloor q else Qceiling q.

Definition ToIntegerOrInfinity (x : Number) : IntOrInf :=
  match x with
  | NaN => Int 0
  | NegInf => NegInfinity
  | PosInf => PosInfinity
  | Fin q => Int (Qtrunc q)
  end.

(** [arr.slice(0, end)]. *)
Definition slice0 {A} (l : list A) (stop : Number) : list A :=
  let len := Z.of_nat (length l) in
  let final :=
    match ToIntegerOrInfinity stop with
    | NegInfinity => 0
    | Int e => if e <? 0 then Z.max (len + e) 0 else Z.min e len
    | PosInfinity => len
    end in
  firstn (Z.to_nat final) l.

(** The outcome of a call that may throw. *)
Inductive Thrown (E A : Type) : Type :=
| Returned (a : A)
| Threw (e : E).
Arguments Returned {E A} a.
Arguments Threw {E A} e.


(** *** Strings

    A string of the language is a sequence of UTF-16 code units. *)

Definition lit (s : string) : list N :=
  map N_of_ascii (list_ascii_of_string s).

(** Truthiness of a string: every string but the empty one. *)
Definition truthy (s : list N) : bool :=
  match s with [] => false | _ :: _ => true end.

(** Truthiness of a value that is a string or [undefined]. *)
Definition truthy_opt (o : option (list N)) : bool :=
  match o with None => false | Some s => truthy s end.

Fixpoint starts_with (pat s : list N) : bool :=
  match pat, s with
  | [], _ => true
  | _ :: _, [] => false
  | p :: pat', c :: s' => (p =? c)%N && starts_with pat' s'
  end.

(** [s.includes(pat)]. *)
Fixpoint includes (s pat : list N) : bool :=
  starts_with pat s ||
  match s with
  | [] => false
  | _ :: s' => includes s' pat
  end.

(** WhiteSpace and LineTerminator code units, the ones [trim] removes. *)
Definition is_space (c : N) : bool :=
  ((9 <=? c) && (c <=? 13) || (c =? 32) || (c =? 160) || (c =? 5760)
   || (8192 <=? c) && (c <=? 8202) || (c =? 8232) || (c =? 8233)
   || (c =? 8239) || (c =? 8287) || (c =? 12288) || (c =? 65279))%N.

Fixpoint trim_start (s : list N) : list N :=
  match s with
  | c :: s' => if is_space c then trim_start s' else s
  | [] => []
  end.

Definition trim_end (s : list N) : list N := rev (trim_start (rev s)).

Definition trim (s : list N) : list N := trim_end (trim_start s).

(** *** decodeURIComponent *)

Definition hex_digit (c : N) : option N :=
  (if (48 <=? c) && (c <=? 57) then Some (c - 48)
   else if (65 <=? c) && (c <=? 70) then Some (c - 55)
   else if (97 <=? c) && (c <=? 102) then Some (c - 87)
   else None)%N.

Definition ParseHexOctet (h1 h2 : N) : option N :=
  match hex_digit h1, hex_digit h2 with
  | Some a, Some b => Some (16 * a + b)%N
  | _, _ => None
  end.

(** Number of leading 1 bits of an octet. *)
Definition leading_ones (b : N) : nat :=
  if (b <? 128)%N then 0%nat else if (b <? 192)%N then 1%nat
  else if (b <? 224)%N then 2%nat else if (b <? 240)%N then 3%nat
  else if (b <? 248)%N then 4%nat else 5%nat.

(** Reads [n] further escapes [%XX] from the head of [s]. *)
Fixpoint continuation_octets (n : nat) (s : list N)
  : option (list N * list N) :=
  match n with
  | O => Some ([], s)
  | S n' =>
      match s with
      | c :: h1 :: h2 :: s' =>
          if (c =? 37)%N then
            match ParseHexOctet h1 h2 with
            | Some b =>
                match continuation_octets n' s' with
                | Some (bs, rest) => Some (b :: bs, rest)
                | None => None
                end
            | None => None
            end
          else None
      | _ => None
      end
  end.

Definition is_continuation (b : N) : bool := ((128 <=? b) && (b <=? 191))%N.

(** The code point of a well-formed UTF-8 sequence of two to four octets:
    continuation octets in 80..BF, no overlong form, no surrogate,
    nothing above U+10FFFF. *)
Definition utf8_code_point (octets : list N) : option N :=
  (match octets with
   | [b0; b1] =>
       let v := (b0 - 192) * 64 + (b1 - 128) in
       if is_continuation b1 && (128 <=? v) then Some v else None
   | [b0; b1; b2] =>
       let v := (b0 - 224) * 4096 + (b1 - 128) * 64 + (b2 - 128) in
       if is_continuation b1 && is_continuation b2 && (2048 <=? v)
          && negb ((55296 <=? v) && (v <=? 57343))
       then Some v else None
   | [b0; b1; b2; b3] =>
       let v := (b0 - 240) * 262144 + (b1 - 128) * 4096
                + (b2 - 128) * 64 + (b3 - 128) in
       if is_continuation b1 && is_continuation b2 && is_continuation b3
          && (65536 <=? v) && (v <=? 1114111)
       then Some v else None
   | _ => None
   end)%N.

Definition UTF16EncodeCodePoint (v : N) : list N :=
  (if v <=? 65535 then [v]
   else [(v - 65536) / 1024 + 55296; (v - 65536) mod 1024 + 56320])%N.

Inductive Error : Type :=
| URIError
| TypeError
| RequestFailed (message : list N).

(** The [Decode] loop of the standard with an empty set of preserved
    escapes.  Every round consumes at least one code unit, so a budget of
    one round per code unit is never exhausted. *)
Fixpoint Decode (budget : nat) (s : list N) : Thrown Error (list N) :=
  match budget with
  | O => Returned []
  | S budget' =>
      match s with
      | [] => Returned []
      | c :: rest =>
          if (c =? 37)%N then
            match rest with
            | h1 :: h2 :: rest2 =>
                match ParseHexOctet h1 h2 with
                | None => Threw URIError
                | Some b =>
                    match leading_ones b with
                    | O =>
                        match Decode budget' rest2 with
                        | Returned r => Returned (b :: r)
                        | Threw e => Threw e
                        end
                    | S O => Threw URIError
                    | S (S m) =>
                        if (2 <? m)%nat then Threw URIError
                        else
                          match continuation_octets (S m) rest2 with
                          | None => Threw URIError
                          | Some (bs, rest3) =>
                              match utf8_code_point (b :: bs) with
                              | None => Threw URIError
                              | Some v =>
                                  match Decode budget' rest3 with
                                  | Returned r =>
                                      Returned (UTF16EncodeCodePoint v ++ r)
                                  | Threw e => Threw e
                                  end
                              end
                          end
                    end
                end
            | _ => Threw URIError
            end
          else
            match Decode budget' rest with
            | Returned r => Returned (c :: r)
            | Threw e => Threw e
            end
      end
  end.

Definition decodeURIComponent (s : list N) : Thrown Error (list N) :=
  Decode (length s) s.

(** [encodeURIComponent] throws on a lone surrogate and on nothing else;
    the escaped text itself is not needed here. *)
Fixpoint well_formed_utf16 (s : list N) : bool :=
  (match s with
   | [] => true
   | c :: s' =>
       if (55296 <=? c) && (c <=? 56319) then
         match s' with
         | d :: s'' => (56320 <=? d) && (d <=? 57343) && well_formed_utf16 s''
         | [] => false
         end
       else if (56320 <=? c) && (c <=? 57343) then false
       else well_formed_utf16 s'
   end)%N.

(** *** Flat JSON values and objects *)

Inductive Value : Type :=
| VUndefined
| VNull
| VBool (b : bool)
| VNum (x : Number)
| VStr (s : list N).

Abbreviation Obj := (gmap string Value).

End Js.

(** ** db.js: the [songs] table *)

Module Db.
Import Js.

(** The table has [videoId] as its primary key, so it holds at most one row
    per id; a row is read back as an object with the four columns. *)
Record Database : Type := { songs : gmap (list N) Obj }.

(** [SELECT * FROM songs WHERE videoId = ?], first row or [undefined]. *)
Definition getSong (db : Database) (videoId : list N) : option Obj :=
  songs db !! videoId.

End Db.

(** ** server.js *)

Module Server.
Import Js.

Definition sample (videoId title : string) : Obj :=
  <["videoId" := VStr (lit videoId)]> (<["title" := VStr (lit title)]> ∅).

Definition SAMPLE_PLAYLIST : list Obj :=
  [ sample "3JZ_D3ELwOQ" "Californication - Red Hot Chili Peppers";
    sample "hTWKbfoikeg" "Smells Like Teen Spirit - Nirvana";
    sample "kXYiU_JCYtU" "Numb - Linkin Park";
    sample "ktvTqknDobU" "In the End - Linkin Park" ].

Definition clampSongTarget (target : Number) : Number :=
  let min := of_Z 100 in
  let max := of_Z 800 in
  if isNaN target then min
  else Math_min (Math_max target min) max.

(** *** The pattern [/[?&]list=([^&#]+)/] *)

Definition is_query_mark (c : N) : bool := ((c =? 63) || (c =? 38))%N.
Definition is_id_char (c : N) : bool := negb ((c =? 38) || (c =? 35))%N.

Fixpoint id_run (s : list N) : list N :=
  match s with
  | c :: s' => if is_id_char c then c :: id_run s' else []
  | [] => []
  end.

(** The pattern tried at the head of [s]: the capture group is greedy and
    nothing follows it, so it is the longest run of id characters, and the
    attempt fails when that run is empty. *)
Definition match_here (s : list N) : option (list N) :=
  match s with
  | c :: rest =>
      if is_query_mark c && starts_with (lit "list=") rest then
        match id_run (skipn 5 rest) with
        | [] => None
        | g => Some g
        end
      else None
  | [] => None
  end.

(** [s.match(pattern)]: the leftmost position where the pattern matches;
    the result is the capture group. *)
Fixpoint list_match (s : list N) : option (list N) :=
  match match_here s with
  | Some g => Some g
  | None =>
      match s with
      | [] => None
      | _ :: s' => list_match s'
      end
  end.

(** [rawValue] is a string or [undefined]. *)
Definition extractPlaylistId (rawValue : option (list N))
  : Thrown Error (list N) :=
  match rawValue with
  | None => Returned []
  | Some raw =>
      if negb (truthy raw) then Returned []
      else if includes raw (lit "list=") then
        match list_match raw with
        | Some g => decodeURIComponent g
        | None => Returned (trim raw)
        end
      else Returned (trim raw)
  end.

(** The text after a capture: nothing, or something that starts with
    ['&'] or ['#']. *)
Definition stops (post : list N) : Prop :=
  match post with
  | [] => True
  | d :: _ => is_id_char d = false
  end.

(** The documented behaviour read literally: whenever the input holds
    ['list='] right after a ['?'] or ['&'], the result is the decoded text
    between ['list='] and the next ['&'] or ['#'] (or the end). *)
Definition extract_as_written : Prop :=
  forall (pre g post : list N) (c : N),
    is_query_mark c = true ->
    forallb is_id_char g = true ->
    stops post ->
    extractPlaylistId (Some (pre ++ c :: lit "list=" ++ g ++ post))
    = decodeURIComponent g.

(** The pattern matches at the head of [s] with capture [g]. *)
Definition matches_head (s g : list N) : Prop :=
  exists c post,
    s = c :: lit "list=" ++ g ++ post
    /\ is_query_mark c = true
    /\ g <> []
    /\ forallb is_id_char g = true
    /\ stops post.

(** The pattern matches in [raw] right after the prefix [pre]. *)
Definition occurs_at (raw pre g : list N) : Prop :=
  exists suffix, raw = pre ++ suffix /\ matches_head suffix g.

(** No position before [n] starts a match; the computable form of
    "leftmost". *)
Definition no_match_before (raw : list N) (n : nat) : bool :=
  forallb (fun i => match match_here (skipn i raw) with
                    | None => true
                    | Some _ => false
                    end) (seq 0 n).

(** *** The playlist listing *)

Record ContentDetails : Type := { videoId : Value }.
Record Snippet : Type := { title : Value; position : Value }.
Record PlaylistItem : Type :=
  { contentDetails : ContentDetails; snippet : Snippet }.

(** [resp.data] of one page of [playlistItems]. *)
Record Page : Type :=
  { items : list PlaylistItem; nextPageToken : option (list N) }.

(** The request address, kept as its three varying parts; an empty
    [pageToken] stands for a request without that parameter. *)
Record Url : Type :=
  { url_playlistId : list N; url_pageToken : list N; url_key : list N }.

(** The upstream service as the code sees it through [axios.get]: the
    answer to the [k]-th request of a call, which is a page or a failure. *)
Definition Upstream : Type := nat -> Url -> Thrown Error Page.

Definition playlistItems_url (playlistId pageToken apiKey : list N)
  : Thrown Error Url :=
  if well_formed_utf16 playlistId
  then Returned {| url_playlistId := playlistId;
                   url_pageToken := pageToken;
                   url_key := apiKey |}
  else Threw URIError.

Definition mapped (it : PlaylistItem) : Obj :=
  <["videoId" := videoId (contentDetails it)]>
    (<["title" := title (snippet it)]>
       (<["position" := position (snippet it)]> ∅)).

(** The [while] loop.  [fuel] bounds the number of rounds the evaluation
    may take; [None] says the loop is still running when it is used up. *)
Fixpoint fetch_loop (axios_get : Upstream) (apiKey playlistId : list N)
    (targetCount : Number) (fuel k : nat)
    (items : list Obj) (pageToken : list N)
  : option (Thrown Error (list Obj)) :=
  if negb (lt (of_nat (length items)) targetCount) then Some (Returned items)
  else
    match fuel with
    | O => None
    | S fuel' =>
        match playlistItems_url playlistId pageToken apiKey with
        | Threw e => Some (Threw e)
        | Returned url =>
            match axios_get k url with
            | Threw e => Some (Threw e)
            | Returned resp =>
                let items := items ++ map mapped (Server.items resp) in
                if negb (truthy_opt (nextPageToken resp))
                   || ge (of_nat (length items)) targetCount
                then Some (Returned items)
                else fetch_loop axios_get apiKey playlistId targetCount
                       fuel' (S k) items (default [] (nextPageToken resp))
            end
        end
    end.

(** [YOUTUBE_API_KEY] of the environment: a string or unset. *)
Definition fetchPlaylistItemsFromYouTube (axios_get : Upstream)
    (YOUTUBE_API_KEY : option (list N))
    (playlistId : list N) (targetCount : Number) (fuel : nat)
  : option (Thrown Error (list Obj)) :=
  match YOUTUBE_API_KEY with
  | Some apiKey =>
      if negb (truthy apiKey) then Some (Returned SAMPLE_PLAYLIST)
      else
        match fetch_loop axios_get apiKey playlistId targetCount
                fuel 0 [] [] with
        | Some (Returned items) => Some (Returned (slice0 items targetCount))
        | Some (Threw e) => Some (Threw e)
        | None => None
        end
  | None => Some (Returned SAMPLE_PLAYLIST)
  end.

(** The pages the loop has read after [n] requests starting from request
    [k] with [pageToken]; the listing stops at the first failure. *)
Fixpoint pages_from (axios_get : Upstream) (apiKey playlistId : list N)
    (n k : nat) (pageToken : list N) : list Page :=
  match n with
  | O => []
  | S n' =>
      match playlistItems_url playlistId pageToken apiKey with
      | Threw _ => []
      | Returned url =>
          match axios_get k url with
          | Threw _ => []
          | Returned resp =>
              resp :: pages_from axios_get apiKey playlistId n' (S k)
                        (default [] (nextPageToken resp))
          end
      end
  end.

(** The records of a run of pages, in upstream order. *)
Definition records_of (pages : list Page) : list Obj :=
  flat_map (fun resp => map mapped (items resp)) pages.

(** The loop goes on after each page of [pages], the first of them read
    with [count] records accumulated: the page announces a next page and
    the records are still fewer than the target. *)
Fixpoint all_go_on (targetCount : Number) (count : nat) (pages : list Page)
  : bool :=
  match pages with
  | [] => true
  | resp :: rest =>
      let count := (count + length (items resp))%nat in
      truthy_opt (nextPageToken resp)
      && negb (ge (of_nat count) targetCount)
      && all_go_on targetCount count rest
  end.

(** The [break] after the page [resp], read with [count] records
    accumulated. *)
Definition stops_after (targetCount : Number) (count : nat) (resp : Page)
  : bool :=
  negb (truthy_opt (nextPageToken resp))
  || ge (of_nat (count + length (items resp))) targetCount.

(** The value of [pageToken] after the loop went on over [pages]. *)
Definition token_after (pageToken : list N) (pages : list Page) : list N :=
  fold_left (fun _ resp => default [] (nextPageToken resp)) pages pageToken.

(** Request number [k], made with [pageToken], fails with [e]: building
    the address throws [e], or [axios.get] rejects with [e]. *)
Definition request_fails (axios_get : Upstream) (apiKey playlistId : list N)
    (k : nat) (pageToken : list N) (e : Error) : Prop :=
  match playlistItems_url playlistId pageToken apiKey with
  | Threw e' => e' = e
  | Returned url => axios_get k url = Threw e
  end.

(** Rounds that suffice for a finite target: each round that goes on adds
    a record. *)
Definition rounds (targetCount : Number) : nat :=
  match targetCount with
  | Fin q => Z.to_nat (Qceiling q)
  | _ => 0%nat
  end.

(** Every page that announces a next page holds at least one item. *)
Definition progresses (axios_get : Upstream) : Prop :=
  forall k url resp,
    axios_get k url = Returned resp ->
    truthy_opt (nextPageToken resp) = true ->
    items resp <> [].

(** The playlist is finite: from request [n] on no page announces a next
    page, so it has at most [n + 1] pages. *)
Definition ends_by (axios_get : Upstream) (n : nat) : Prop :=
  forall k url resp,
    (n <= k)%nat ->
    axios_get k url = Returned resp ->
    truthy_opt (nextPageToken resp) = false.

(** An upstream that answers every request with an empty page and a token
    for the next one. *)
Definition empty_pages : Upstream :=
  fun _ _ => Returned {| items := []; nextPageToken := Some (lit "next") |}.

Definition item (id name : string) (pos : Z) : PlaylistItem :=
  {| contentDetails := {| videoId := VStr (lit id) |};
     snippet := {| title := VStr (lit name); position := VNum (of_Z pos) |} |}.

(** An upstream whose first page arrives and whose second request fails. *)
Definition second_request_fails : Upstream :=
  fun k _ =>
    match k with
    | O => Returned {| items := [item "3JZ_D3ELwOQ" "Californication" 0];
                       nextPageToken := Some (lit "CAUQAA") |}
    | _ => Threw (RequestFailed (lit "Request failed with status code 403"))
    end.

(** An upstream with a single page of one item. *)
Definition one_page : Upstream :=
  fun _ _ => Returned {| items := [item "hTWKbfoikeg" "Smells Like Teen Spirit" 0];
                         nextPageToken := None |}.

(** An endless upstream: every page holds one item and announces the
    next page. *)
Definition endless_pages : Upstream :=
  fun k _ =>
    Returned {| items := [item "kXYiU_JCYtU" "Numb" (Z.of_nat k)];
                nextPageToken := Some (lit "next") |}.

(** *** GET /api/playlist *)

Record PlaylistQuery : Type :=
  { q_playlistId : option (list N);
    q_playlistUrl : option (list N);
    q_maxSongs : Number  (* Number(req.query.maxSongs) *) }.

Inductive PlaylistBody : Type :=
| SampleBody (playlistId : list N) (items : list Obj)
             (requested targetCount : Number) (fallback : bool)
| ItemsBody (playlistId : list N) (items : list Obj)
            (requested count : Number) (fallback : bool)
| ErrorBody (error : list N).

Record PlaylistResponse : Type :=
  { status : Z; body : PlaylistBody }.

(** [a || b || ''] on two optional strings. *)
Definition first_truthy (a b : option (list N)) : list N :=
  if truthy_opt a then default [] a
  else if truthy_opt b then default [] b
  else [].

Definition failed_playlist : PlaylistResponse :=
  {| status := 500; body := ErrorBody (lit "Failed to fetch playlist") |}.

Definition get_playlist (axios_get : Upstream)
    (YOUTUBE_API_KEY : option (list N)) (query : PlaylistQuery)
    (fuel : nat) : option PlaylistResponse :=
  match extractPlaylistId
          (Some (first_truthy (q_playlistId query) (q_playlistUrl query)))
  with
  | Threw _ => Some failed_playlist
  | Returned requestedPlaylist =>
      let targetCount := clampSongTarget (q_maxSongs query) in
      let usingSample := negb (truthy_opt YOUTUBE_API_KEY) in
      if negb (truthy requestedPlaylist) then
        Some {| status := 200;
                body := SampleBody (lit "SAMPLE") SAMPLE_PLAYLIST (of_Z 0)
                          (of_nat (length SAMPLE_PLAYLIST)) true |}
      else
        match fetchPlaylistItemsFromYouTube axios_get YOUTUBE_API_KEY
                requestedPlaylist targetCount fuel with
        | None => None
        | Some (Threw _) => Some failed_playlist
        | Some (Returned items) =>
            Some {| status := 200;
                    body := ItemsBody requestedPlaylist items targetCount
                              (of_nat (length items)) usingSample |}
        end
  end.

(** The items a caller of the route can read off a response. *)
Definition body_items (b : PlaylistBody) : option (list Obj) :=
  match b with
  | SampleBody _ items _ _ _ => Some items
  | ItemsBody _ items _ _ _ => Some items
  | ErrorBody _ => None
  end.

(** *** GET /api/song/:videoId *)

Record SongResponse : Type :=
  { song_status : Z; song_body : Obj }.

Definition default_song (videoId : list N) : Obj :=
  <["videoId" := VStr videoId]>
    (<["snippetStart" := VNum (of_Z 0)]>
       (<["snippetLength" := VNum (of_Z 30)]>
          (<["lyrics" := VStr []]> ∅))).

(** The handler over the outcome of [db.getSong(videoId)]: a row object is
    always truthy, so [row || default] picks the default exactly when the
    lookup gave [undefined]. *)
Definition song_handler (lookup : Thrown Error (option Obj))
    (videoId : list N) : SongResponse :=
  match lookup with
  | Returned row =>
      {| song_status := 200;
         song_body := default (default_song videoId) row |}
  | Threw _ =>
      {| song_status := 500;
         song_body := <["error" := VStr (lit "Failed to fetch song")]> ∅ |}
  end.

Definition get_song (db : Db.Database) (videoId : list N) : SongResponse :=
  song_handler (Returned (Db.getSong db videoId)) videoId.

Definition sample_query : PlaylistQuery :=
  {| q_playlistId := Some (lit "PL1"); q_playlistUrl := None;
     q_maxSongs := NaN |}.

(** *** The documented behaviour of the listing, read literally *)

(** Pages already read stay available to the caller of the route when a
    later request fails. *)
Definition partial_pages_survive : Prop :=
  forall (axios_get : Upstream) (apiKey : list N) (query : PlaylistQuery)
         (fuel : nat) (resp : PlaylistResponse) (pid : list N) (first : Page),
    truthy apiKey = true ->
    extractPlaylistId
      (Some (first_truthy (q_playlistId query) (q_playlistUrl query)))
    = Returned pid ->
    pages_from axios_get apiKey pid 1 0 [] = [first] ->
    get_playlist axios_get (Some apiKey) query fuel = Some resp ->
    status resp = 500 ->
    exists kept,
      body_items (body resp) = Some kept
      /\ forall it, In it (items first) -> In (mapped it) kept.

(** A record with a source identifier, a title, an uploader and a
    duration: four fields under four different keys. *)
Definition has_four_fields (r : Obj) : Prop :=
  exists id name uploader duration : string,
    NoDup [id; name; uploader; duration]
    /\ is_Some (r !! id) /\ is_Some (r !! name)
    /\ is_Some (r !! uploader) /\ is_Some (r !! duration).

Definition listing_has_four_fields : Prop :=
  forall (axios_get : Upstream) (YOUTUBE_API_KEY : option (list N))
         (playlistId : list N) (targetCount : Number) (fuel : nat)
         (result : list Obj) (r : Obj),
    fetchPlaylistItemsFromYouTube axios_get YOUTUBE_API_KEY playlistId
      targetCount fuel = Some (Returned result) ->
    In r result ->
    has_four_fields r.

End Server.

(** ** The ingestion core of the design documents *)

Module Pipeline.
Import Js.

(** *** Eligibility filter *)

Inductive RejectionReason : Type := DurationTooShort | LowVocalPresence.

Inductive Verdict : Type :=
| pass
| reject (reason : RejectionReason).

Record Candidate : Type :=
  { source_id : string;
    title : string;
    uploader : string;
    duration_seconds : Q;
    raw_audio_ref : string }.

(** Modelled from the spec: [checkDuration] of the Eligibility Filter, part
    of [scripts/karaoke_pipeline.py], which is not among the sources.  The
    specification has it reject exactly when [duration_seconds < 40]. *)
Definition checkDuration (c : Candidate) : Verdict :=
  if Qlt_bool (duration_seconds c) 40 then reject DurationTooShort else pass.

(** Modelled from the spec: the vocal-presence gate of the same absent
    script, rejecting when the score is below the configured threshold. *)
Definition checkVocalPresence (threshold score : Q) : Verdict :=
  if Qlt_bool score threshold then reject LowVocalPresence else pass.

(** Modelled from the spec: the Eligibility Filter of the absent script.
    The duration gate is metadata-only and runs before any audio is
    fetched; the vocal score is computed over downloaded audio and is
    consulted only for candidates that passed the duration gate. *)
Definition eligibilityFilter (threshold : Q) (c : Candidate) (vocal_score : Q)
  : Verdict :=
  match checkDuration c with
  | reject reason => reject reason
  | pass => checkVocalPresence threshold vocal_score
  end.

(** *** Rights state machine and catalog *)

Inductive LicenseState : Type :=
| pending_clearance
| cleared
| restricted
| rejected.

#[global] Instance LicenseState_eq_dec : EqDecision LicenseState.
Proof. solve_decision. Defined.

Record RightsRecord : Type :=
  { rights_uploader : string;
    license_string : string;
    license_state : LicenseState }.

(** The published bundle, reduced to the parts the gate looks at: the
    rights record as read at the moment of publish and the QA verdict. *)
Record CatalogEntry : Type :=
  { entry_rights : RightsRecord; entry_qa_pass : bool }.

(** The shared stores, keyed by [source_id], and the compliance log. *)
Record Store : Type :=
  { rights : gmap string RightsRecord;
    qa : gmap string bool;
    catalog : gmap string CatalogEntry;
    violations : list string }.

Definition empty_store : Store :=
  {| rights := ∅; qa := ∅; catalog := ∅; violations := [] |}.

Inductive Action : Type :=
| Ingest (c : Candidate) (license : string)
| QaResult (sid : string) (qa_pass : bool)
| Publish (sid : string)
| Unpublish (sid : string)
| Reconcile
| SetLicenseState (sid : string) (new_state : LicenseState)
                  (evidence_uri : string).

(** Every action but the manual clearance is performed by the core. *)
Definition core (a : Action) : bool :=
  match a with
  | SetLicenseState _ _ _ => false
  | _ => true
  end.

Definition is_cleared (rs : gmap string RightsRecord) (sid : string) : bool :=
  match rs !! sid with
  | Some r => bool_decide (license_state r = cleared)
  | None => false
  end.

Definition set_state (st : LicenseState) (r : RightsRecord) : RightsRecord :=
  {| rights_uploader := rights_uploader r;
     license_string := license_string r;
     license_state := st |}.

(** Modelled from the spec: ingestion in the orchestrator of the absent
    script.  A rights record is created with [pending_clearance]; a
    completed ingestion submitted again is a no-op. *)
Definition ingest (s : Store) (c : Candidate) (license : string) : Store :=
  match rights s !! source_id c with
  | Some _ => s
  | None =>
      {| rights := <[source_id c :=
                       {| rights_uploader := uploader c;
                          license_string := license;
                          license_state := pending_clearance |}]> (rights s);
         qa := qa s; catalog := catalog s; violations := violations s |}
  end.

(** Modelled from the spec: the publish step of the absent orchestrator.
    It reads the rights record again immediately before writing; the entry
    is written only when the record is [cleared] and the QA gate passed,
    and an attempt without clearance is logged as a compliance violation. *)
Definition publish (s : Store) (sid : string) : Store :=
  match rights s !! sid with
  | Some r =>
      if bool_decide (license_state r = cleared) then
        match qa s !! sid with
        | Some true =>
            {| rights := rights s; qa := qa s;
               catalog := <[sid := {| entry_rights := r;
                                      entry_qa_pass := true |}]> (catalog s);
               violations := violations s |}
        | _ => s
        end
      else
        {| rights := rights s; qa := qa s; catalog := catalog s;
           violations := sid :: violations s |}
  | None =>
      {| rights := rights s; qa := qa s; catalog := catalog s;
         violations := sid :: violations s |}
  end.

(** Modelled from the spec: [unpublish(source_id)] of the absent
    orchestrator; the entry goes, the rights record and the log stay. *)
Definition unpublish (s : Store) (sid : string) : Store :=
  {| rights := rights s; qa := qa s;
     catalog := delete sid (catalog s);
     violations := violations s |}.

(** Modelled from the spec: one reconciliation pass of the absent
    orchestrator, which unpublishes every entry whose rights record is
    not [cleared] any more. *)
Definition reconcile (s : Store) : Store :=
  {| rights := rights s; qa := qa s;
     catalog := filter (λ kv, is_cleared (rights s) kv.1 = true) (catalog s);
     violations := violations s |}.

(** Modelled from the spec: the external manual-clearance action
    [setLicenseState(source_id, new_state, evidence_uri)], consumed by the
    core.  This is its effect on the rights store, which the specification
    fixes: the state of an existing record is rewritten.  What a downgrade
    does to the catalog is said twice in the specification, as "must
    trigger retraction" and as "removes it from the catalog on the next
    reconciliation pass"; both readings are modelled below, as
    [Retraction]. *)
Definition setLicenseState (s : Store) (sid : string) (st : LicenseState)
  : Store :=
  {| rights := alter (set_state st) sid (rights s);
     qa := qa s; catalog := catalog s; violations := violations s |}.

Definition step (s : Store) (a : Action) : Store :=
  match a with
  | Ingest c license => ingest s c license
  | QaResult sid ok =>
      {| rights := rights s; qa := <[sid := ok]> (qa s);
         catalog := catalog s; violations := violations s |}
  | Publish sid => publish s sid
  | Unpublish sid => unpublish s sid
  | Reconcile => reconcile s
  | SetLicenseState sid st _ => setLicenseState s sid st
  end.

(** The store after a sequence of actions, oldest first. *)
Definition run (trace : list Action) : Store :=
  fold_left step trace empty_store.

(** Modelled from the spec: when the retraction that a downgrade "must
    trigger" takes place.  The orchestrator is absent and the specification
    allows both: the entry is unpublished with the downgrade itself, or it
    is unpublished by the next reconciliation pass. *)
Inductive Retraction : Type := at_downgrade | at_reconcile.

(** Modelled from the spec: the manual-clearance action as the orchestrator
    consumes it under either reading.  Under [at_downgrade] a record left in
    a state other than [cleared] has its entry unpublished at once. *)
Definition consume (m : Retraction) (s : Store) (sid : string)
    (st : LicenseState) : Store :=
  let s' := setLicenseState s sid st in
  match m with
  | at_downgrade => if is_cleared (rights s') sid then s' else unpublish s' sid
  | at_reconcile => s'
  end.

(** One action under the reading [m]; under [at_reconcile] it is [step]. *)
Definition step_in (m : Retraction) (s : Store) (a : Action) : Store :=
  match a with
  | SetLicenseState sid st _ => consume m s sid st
  | _ => step s a
  end.

(** The store after a sequence of actions under the reading [m]. *)
Definition run_in (m : Retraction) (trace : list Action) : Store :=
  fold_left (step_in m) trace empty_store.

(** The rights invariant read on one store. *)
Definition rights_gated (s : Store) : Prop :=
  ∀ sid, is_Some (catalog s !! sid) → is_cleared (rights s) sid = true.

(** Every entry bundles a record that was [cleared] when it was written. *)
Definition bundles_cleared (s : Store) : Prop :=
  ∀ sid e, catalog s !! sid = Some e → license_state (entry_rights e) = cleared.

Definition targets (sid : string) (a : Action) : bool :=
  match a with
  | SetLicenseState sid' _ _ => bool_decide (sid' = sid)
  | _ => false
  end.

(** A step that is not a downgrade of a published record. *)
Definition no_downgrade (s : Store) (a : Action) : Prop :=
  forall sid st uri,
    a = SetLicenseState sid st uri ->
    st = cleared \/ catalog s !! sid = None.

(** The reconciliation window of [sid]: it opens when a manual action
    leaves the record of [sid] in a state other than [cleared], and it
    closes with the next reconciliation pass or when the record is
    cleared again. *)
Definition window (sid : string) (a : Action) (opened : bool) : bool :=
  match a with
  | SetLicenseState sid' st _ =>
      if bool_decide (sid' = sid) then negb (bool_decide (st = cleared))
      else opened
  | Reconcile => false
  | _ => opened
  end.

(** Whether [sid] is inside its reconciliation window after [trace]. *)
Definition awaiting (sid : string) (trace : list Action) : bool :=
  fold_left (λ opened a, window sid a opened) trace false.

Definition song : Candidate :=
  {| source_id := "yt1"; title := "Numb"; uploader := "Linkin Park";
     duration_seconds := 45; raw_audio_ref := "raw/yt1.wav" |}.

(** Ingest, pass QA, clear, publish, then downgrade. *)
Definition downgrade_trace : list Action :=
  [ Ingest song "standard";
    QaResult "yt1" true;
    SetLicenseState "yt1" cleared "evidence/1";
    Publish "yt1";
    SetLicenseState "yt1" restricted "evidence/2" ].

End Pipeline.

(** ** Further notions used to state how the server behaves *)

Module Reading.
Import Js Server.

(** A text without a percent sign. *)
Definition plain (s : list N) : bool :=
  forallb (fun c => negb (c =? 37)%N) s.

(** What follows a percent sign that [Decode] cannot read as an escape:
    fewer than two code units, or two that are not hexadecimal digits. *)
Definition bad_escape (rest : list N) : Prop :=
  match rest with
  | h1 :: h2 :: _ => ParseHexOctet h1 h2 = None
  | _ => True
  end.

(** [bad_escape] as a test. *)
Definition bad_escapeb (rest : list N) : bool :=
  match rest with
  | h1 :: h2 :: _ =>
      match ParseHexOctet h1 h2 with Some _ => false | None => true end
  | _ => true
  end.

(** Some percent sign of the text is not followed by two hexadecimal
    digits. *)
Fixpoint has_bad_escape (s : list N) : bool :=
  match s with
  | [] => false
  | c :: rest => (c =? 37)%N && bad_escapeb rest || has_bad_escape rest
  end.

(** The answer of the playlist route when no playlist was asked for. *)
Definition sample_response : PlaylistResponse :=
  {| status := 200;
     body := SampleBody (lit "SAMPLE") SAMPLE_PLAYLIST (of_Z 0) (of_Z 4) true |}.

(** A text that neither starts nor ends with white space. *)
Definition tight (s : list N) : Prop :=
  match s with
  | [] => True
  | c :: _ => is_space c = false
  end
  /\ match rev s with
     | [] => True
     | c :: _ => is_space c = false
     end.

End Reading.

(** ** db.js: writing and listing songs, and the routes over them *)

Module Songs.
Import Js.

Inductive Affinity : Type := INTEGER | TEXT.

(** The one failure [stmt.run] has here: a parameter the driver refuses. *)
Inductive DbError : Type := BindError.

(** The argument of [upsertSong] after the route built it: [videoId] is
    the path parameter, the other three come from the request body and may
    be [undefined]. *)
Record Song : Type :=
  { videoId : list N;
    snippetStart : Value;
    snippetLength : Value;
    lyrics : Value }.

(** A destructuring default replaces [undefined] and nothing else. *)
Definition or_default (v d : Value) : Value :=
  match v with
  | VUndefined => d
  | _ => v
  end.

(** A row of [songs] as [stmt.get] and [stmt.all] hand it back. *)
Definition row (videoId : list N) (snippetStart snippetLength lyrics : Value)
  : Obj :=
  <["videoId" := VStr videoId]>
    (<["snippetStart" := snippetStart]>
       (<["snippetLength" := snippetLength]>
          (<["lyrics" := lyrics]> ∅))).



Section Engine.

(** The driver and the engine below db.js, taken as given: [column a v] is
    what a value [v] bound to a statement parameter reads back as from a
    column of affinity [a], and [None] when the driver refuses to bind [v],
    in which case [stmt.run] throws before anything is written.  The id is a
    string bound to the TEXT primary key and is taken to read back as
    itself. *)
Variable column : Affinity -> Value -> option Value.

(** [INSERT ... ON CONFLICT(videoId) DO UPDATE SET] the three other
    columns: the row of that id is created or replaced. *)
Definition upsertSong (db : Db.Database) (song : Song)
  : Thrown DbError Db.Database :=
  let snippetStart := or_default (snippetStart song) (VNum (of_Z 0)) in
  let snippetLength := or_default (snippetLength song) (VNum (of_Z 30)) in
  let lyrics := or_default (lyrics song) (VStr []) in
  match column INTEGER snippetStart, column INTEGER snippetLength,
        column TEXT lyrics with
  | Some a, Some b, Some c =>
      Returned {| Db.songs := <[videoId song := row (videoId song) a b c]>
                                (Db.songs db) |}
  | _, _, _ => Threw BindError
  end.

(** A property of the parsed request body, [undefined] when absent. *)
Definition body_field (body : Obj) (key : string) : Value :=
  default VUndefined (body !! key).

Definition saved : Server.SongResponse :=
  {| Server.song_status := 200;
     Server.song_body := <["ok" := VBool true]> ∅ |}.

Definition failed_save : Server.SongResponse :=
  {| Server.song_status := 500;
     Server.song_body := <["error" := VStr (lit "Failed to save song")]> ∅ |}.

(** The handler of POST /api/song/:videoId, run on the parsed body: the
    response and the table afterwards.  Requests that the body parser
    fails never reach it; [post_request] below has them. *)
Definition post_song (db : Db.Database) (videoId : list N) (body : Obj)
  : Server.SongResponse * Db.Database :=
  match upsertSong db {| videoId := videoId;
                         snippetStart := body_field body "snippetStart";
                         snippetLength := body_field body "snippetLength";
                         lyrics := body_field body "lyrics" |} with
  | Returned db' => (saved, db')
  | Threw _ => (failed_save, db)
  end.


(** The table after a sequence of save requests, oldest first. *)
Definition after_saves (requests : list (list N * Obj)) (db : Db.Database)
  : Db.Database :=
  fold_left (fun db request => (post_song db request.1 request.2).2)
    requests db.

End Engine.

(** [SELECT * FROM songs]: every row, once.  SQL leaves the order of the
    rows open; the order of this list is not meant to say anything. *)
Definition listSongs (db : Db.Database) : list Obj :=
  (map_to_list (Db.songs db)).*2.

(** GET /api/songs: status and rows. *)
Definition get_songs (db : Db.Database) : Z * list Obj :=
  (200, listSongs db).

Definition empty_table : Db.Database := {| Db.songs := ∅ |}.

(** Every row sits under its own [videoId] and has the four columns. *)
Definition keyed (db : Db.Database) : Prop :=
  forall id r, Db.songs db !! id = Some r -> exists a b c, r = row id a b c.

(** An example engine for concrete runs, not SQLite's type affinity: it
    stores every number, string and null as it is and refuses booleans and
    [undefined].  It agrees with SQLite on an integer bound to an INTEGER
    column, on a string bound to the TEXT column and on null; SQLite
    converts a number bound to the TEXT column to text and numeric text
    bound to an INTEGER column to a number, and no general statement below
    depends on this engine. *)
Definition plain_column (a : Affinity) (v : Value) : option Value :=
  match v with
  | VUndefined | VBool _ => None
  | _ => Some v
  end.

End Songs.

(** ** scripts/test-api.js: the smoke test *)

Module Smoke.
Import Js.

Inductive Outcome : Type :=
| Finished
| Exited (code : Z).

Section Transport.

(** The [:videoId] the song route receives when the client asks for
    [`/api/song/${vid}`]; how a value is rendered into the address and read
    back from it is left to the transport. *)
Variable path_param : Value -> list N.

(** [axios.get] rejects unless the status is 2xx. *)
Definition accepted (status : Z) : bool := (200 <=? status) && (status <? 300).

(** [smoke()] against the server: both requests inside one [try]; any
    rejection or thrown error ends the process with code 2.  [None] says
    the first request is still running when the budget is used up. *)
Definition smoke (axios_get : Server.Upstream)
    (YOUTUBE_API_KEY : option (list N)) (db : Db.Database) (fuel : nat)
  : option Outcome :=
  match Server.get_playlist axios_get YOUTUBE_API_KEY
          {| Server.q_playlistId := None; Server.q_playlistUrl := None;
             Server.q_maxSongs := NaN |} fuel with
  | None => None
  | Some p =>
      if accepted (Server.status p) then
        match Server.body_items (Server.body p) with
        | Some (first :: _) =>
            let vid := default VUndefined (first !! "videoId") in
            let s := Server.get_song db (path_param vid) in
            if accepted (Server.song_status s) then Some Finished
            else Some (Exited 2)
        | _ => Some (Exited 2)
        end
      else Some (Exited 2)
  end.

End Transport.

End Smoke.

(** ** public/app.js: selection and looping *)

Module Client.
Import Js.

(** [YT.PlayerState]. *)
Inductive PlayerState : Type :=
| UNSTARTED | ENDED | PLAYING | PAUSED | BUFFERING | CUED.

(** [ytPlayer]: not yet assigned, assigned but without its methods, or
    ready. *)
Inductive Player : Type := Absent | Created | Ready.

Inductive PlayerCall : Type :=
| LoadVideoById (videoId : option (list N)) (startSeconds : Number)
| SeekTo (seconds : Number)
| PlayVideo.

Inductive Timer : Type := LoopTimer | PollTimer.

(** The globals of the script, the intervals that are live in the page and
    the calls made on the player (newest first).  Alerts and the request of
    a save are outputs that are not kept here. *)
Record App : Type :=
  { ytPlayer : Player;
    currentVideoId : option (list N);
    snippetStart : Number;
    snippetLength : Number;
    loopInterval : option positive;
    loopActive : bool;
    loopMode : list N;
    timers : gmap positive Timer;
    next_timer : positive;
    calls : list PlayerCall}.

(** The page once [wireUI] has run: the globals as declared and the 500 ms
    poller as the only interval. *)
Definition init : App :=
  {| ytPlayer := Absent;
     currentVideoId := None;
     snippetStart := of_Z 0;
     snippetLength := of_Z 30;
     loopInterval := None;
     loopActive := false;
     loopMode := lit "snippet";
     timers := {[ 1%positive := PollTimer ]};
     next_timer := 2%positive;
     calls := [] |}.

Definition set_selection (vid : option (list N)) (start len : Number)
    (s : App) : App :=
  {| ytPlayer := ytPlayer s; currentVideoId := vid;
     snippetStart := start; snippetLength := len;
     loopInterval := loopInterval s; loopActive := loopActive s;
     loopMode := loopMode s; timers := timers s; next_timer := next_timer s;
     calls := calls s |}.

Definition set_snippet (start len : Number) (s : App) : App :=
  set_selection (currentVideoId s) start len s.

(** A call of a method of [ytPlayer]: it throws, and so ends the handler,
    unless the player is ready. *)
Definition call (c : PlayerCall) (s : App) : option App :=
  match ytPlayer s with
  | Ready =>
      Some {| ytPlayer := ytPlayer s; currentVideoId := currentVideoId s;
              snippetStart := snippetStart s; snippetLength := snippetLength s;
              loopInterval := loopInterval s; loopActive := loopActive s;
              loopMode := loopMode s; timers := timers s;
              next_timer := next_timer s;
              calls := c :: calls s |}
  | _ => None
  end.

Definition stopLoop (s : App) : App :=
  {| ytPlayer := ytPlayer s; currentVideoId := currentVideoId s;
     snippetStart := snippetStart s; snippetLength := snippetLength s;
     loopInterval := None;
     loopActive := false;
     loopMode := loopMode s;
     timers := match loopInterval s with
               | Some id => delete id (timers s)
               | None => timers s
               end;
     next_timer := next_timer s;
     calls := calls s |}.

Definition set_active (s : App) : App :=
  {| ytPlayer := ytPlayer s; currentVideoId := currentVideoId s;
     snippetStart := snippetStart s; snippetLength := snippetLength s;
     loopInterval := loopInterval s; loopActive := true;
     loopMode := loopMode s; timers := timers s; next_timer := next_timer s;
     calls := calls s |}.

(** [loopInterval = setInterval(..., 300)] with a fresh id. *)
Definition set_loop_interval (s : App) : App :=
  {| ytPlayer := ytPlayer s; currentVideoId := currentVideoId s;
     snippetStart := snippetStart s; snippetLength := snippetLength s;
     loopInterval := Some (next_timer s); loopActive := loopActive s;
     loopMode := loopMode s;
     timers := <[next_timer s := LoopTimer]> (timers s);
     next_timer := Pos.succ (next_timer s);
     calls := calls s |}.

Definition is_full (mode : list N) : bool :=
  bool_decide (mode = lit "full").

(** A handler that threw keeps what it had done up to the throw. *)
Definition startLoop (s : App) : App :=
  let s := set_active (stopLoop s) in
  if is_full (loopMode s) then
    default s (call (LoadVideoById (currentVideoId s) (of_Z 0)) s)
  else
    match call (LoadVideoById (currentVideoId s) (snippetStart s)) s with
    | Some s => set_loop_interval s
    | None => s
    end.

Definition set_mode (mode : list N) (s : App) : App :=
  {| ytPlayer := ytPlayer s; currentVideoId := currentVideoId s;
     snippetStart := snippetStart s; snippetLength := snippetLength s;
     loopInterval := loopInterval s; loopActive := loopActive s;
     loopMode := mode; timers := timers s; next_timer := next_timer s;
     calls := calls s |}.

Definition previewSnippet (mode : list N) (s : App) : App :=
  if negb (truthy_opt (currentVideoId s)) then s
  else startLoop (set_mode mode s).

Definition playSong (videoId : list N) (start len : Number) (s : App) : App :=
  let s := stopLoop (set_selection (Some videoId) (snippetStart s)
                       (snippetLength s) s) in
  let s := set_snippet start len s in
  default s (call (LoadVideoById (Some videoId) start) s).

(** Two calls in a row; the second is not reached when the first throws. *)
Definition seek_and_play (t : Number) (s : App) : App :=
  match call (SeekTo t) s with
  | Some s' => default s' (call PlayVideo s')
  | None => s
  end.

Definition onPlayerStateChange (data : PlayerState) (s : App) : App :=
  if negb (loopActive s) || match ytPlayer s with Absent => true | _ => false end
  then s
  else
    match data with
    | ENDED =>
        if is_full (loopMode s) then seek_and_play (of_Z 0) s
        else seek_and_play (snippetStart s) s
    | _ => s
    end.

(** The callback of the loop interval; [past_end] is the outcome of
    [currentTime >= snippetStart + snippetLength] at that moment. *)
Definition loop_callback (past_end : bool) (s : App) : App :=
  match ytPlayer s with
  | Ready => if past_end then seek_and_play (snippetStart s) s else s
  | _ => s
  end.

(** The callback of the 500 ms poller; [state] is what [getPlayerState]
    returns. *)
Definition poll_callback (state : PlayerState) (s : App) : App :=
  match ytPlayer s with
  | Ready =>
      match state with
      | PAUSED | ENDED => if negb (loopActive s) then stopLoop s else s
      | _ => s
      end
  | _ => s
  end.

Definition set_player (p : Player) (s : App) : App :=
  {| ytPlayer := p; currentVideoId := currentVideoId s;
     snippetStart := snippetStart s; snippetLength := snippetLength s;
     loopInterval := loopInterval s; loopActive := loopActive s;
     loopMode := loopMode s; timers := timers s; next_timer := next_timer s;
     calls := calls s |}.

(** What happens in the page.  A click on Play or Edit comes with the id of
    the button and the numbers read from the two inputs after the handler
    filled them; Preview and Save come with the numbers read from the
    inputs, Preview also with the value of the mode selector; an interval
    fires with its id. *)
Inductive Event : Type :=
| ApiReady
| PlayerReady
| ClickPlay (vid : list N) (start len : Number)
| ClickEdit (vid : list N) (start len : Number)
| ClickPreview (start len : Number) (mode : list N)
| ClickStop
| ClickSave (start len : Number)
| StateChange (data : PlayerState)
| Tick (id : positive) (past_end : bool) (state : PlayerState).

Definition step (s : App) (e : Event) : App :=
  match e with
  | ApiReady => set_player Created s
  | PlayerReady =>
      match ytPlayer s with
      | Absent => s
      | _ => set_player Ready s
      end
  | ClickPlay vid start len => playSong vid start len s
  | ClickEdit vid start len => set_selection (Some vid) start len s
  | ClickPreview start len mode => previewSnippet mode (set_snippet start len s)
  | ClickStop => stopLoop s
  | ClickSave start len => set_snippet start len s
  | StateChange data => onPlayerStateChange data s
  | Tick id past_end state =>
      match timers s !! id with
      | Some LoopTimer => loop_callback past_end s
      | Some PollTimer => poll_callback state s
      | None => s
      end
  end.

Definition run (events : list Event) : App := fold_left step events init.

(** The intervals of the page are the poller and, when the script remembers
    one, the loop interval it remembers. *)
Definition wired (s : App) : Prop :=
  timers s !! 1%positive = Some PollTimer
  /\ (forall id, timers s !! id = Some LoopTimer <-> loopInterval s = Some id)
  /\ (forall id, timers s !! id = Some PollTimer -> id = 1%positive)
  /\ (forall id, is_Some (timers s !! id) -> (id < next_timer s)%positive).

(** Moreover a remembered interval means an active loop that is not in
    full mode. *)
Definition tidy (s : App) : Prop :=
  wired s
  /\ (forall id, loopInterval s = Some id ->
                 loopActive s = true /\ is_full (loopMode s) = false).

(** An event that comes from the player or from an interval, not from the
    user. *)
Definition automatic (e : Event) : bool :=
  match e with
  | StateChange _ | Tick _ _ _ => true
  | _ => false
  end.

End Client.

(** ** encodeURIComponent *)

Module Uri.
Import Js.

(** The characters [encodeURIComponent] leaves alone: ASCII letters,
    digits and [-_.!~*'()]. *)
Definition unescaped (c : N) : bool :=
  ((65 <=? c) && (c <=? 90) || (97 <=? c) && (c <=? 122)
   || (48 <=? c) && (c <=? 57)
   || (c =? 45) || (c =? 95) || (c =? 46) || (c =? 33) || (c =? 126)
   || (c =? 42) || (c =? 39) || (c =? 40) || (c =? 41))%N.

(** An upper-case hexadecimal digit. *)
Definition hex_char (d : N) : N := (if d <? 10 then 48 + d else 55 + d)%N.

(** [%XX] for one octet. *)
Definition escape (b : N) : list N :=
  [37; hex_char (b / 16); hex_char (b mod 16)]%N.

(** The UTF-8 octets of a code point. *)
Definition utf8_octets (v : N) : list N :=
  (if v <? 128 then [v]
   else if v <? 2048 then [192 + v / 64; 128 + v mod 64]
   else if v <? 65536 then
     [224 + v / 4096; 128 + (v / 64) mod 64; 128 + v mod 64]
   else
     [240 + v / 262144; 128 + (v / 4096) mod 64; 128 + (v / 64) mod 64;
      128 + v mod 64])%N.

Definition escapes (v : N) : list N := flat_map escape (utf8_octets v).

Definition is_high (c : N) : bool := ((55296 <=? c) && (c <=? 56319))%N.
Definition is_low (c : N) : bool := ((56320 <=? c) && (c <=? 57343))%N.

(** The code point of a surrogate pair. *)
Definition pair_code_point (hi lo : N) : N :=
  ((hi - 55296) * 1024 + (lo - 56320) + 65536)%N.

(** The [Encode] loop of the standard with the unreserved set above: an
    unescaped code unit is copied, any other code point is written as the
    escapes of its UTF-8 octets, and a surrogate that is not part of a pair
    throws. *)
Fixpoint encodeURIComponent (s : list N) : Thrown Error (list N) :=
  match s with
  | [] => Returned []
  | c :: s' =>
      if unescaped c then
        match encodeURIComponent s' with
        | Returned r => Returned (c :: r)
        | Threw e => Threw e
        end
      else if is_high c then
        match s' with
        | d :: s'' =>
            if is_low d then
              match encodeURIComponent s'' with
              | Returned r => Returned (escapes (pair_code_point c d) ++ r)
              | Threw e => Threw e
              end
            else Threw URIError
        | [] => Threw URIError
        end
      else if is_low c then Threw URIError
      else
        match encodeURIComponent s' with
        | Returned r => Returned (escapes c ++ r)
        | Threw e => Threw e
        end
  end.

(** Every code unit fits in sixteen bits. *)
Definition code_units (s : list N) : Prop := Forall (fun c => (c < 65536)%N) s.

End Uri.

(** ** The earlier server.js: one page, no clamp *)

Module FirstPage.
Import Js.

Definition mapped (it : Server.PlaylistItem) : Obj :=
  <["videoId" := Server.videoId (Server.contentDetails it)]>
    (<["title" := Server.title (Server.snippet it)]> ∅).

(** [fetchPlaylistItemsFromYouTube(playlistId)] of the earlier version: the
    sample without an API key, otherwise the items of one request for the
    first fifty entries.  Nothing is awaited but that one request, so no
    budget is needed. *)
Definition fetchPlaylistItemsFromYouTube (axios_get : Server.Upstream)
    (YOUTUBE_API_KEY : option (list N)) (playlistId : list N)
  : Thrown Error (list Obj) :=
  match YOUTUBE_API_KEY with
  | Some apiKey =>
      if negb (truthy apiKey) then Returned Server.SAMPLE_PLAYLIST
      else
        match Server.playlistItems_url playlistId [] apiKey with
        | Threw e => Threw e
        | Returned url =>
            match axios_get 0%nat url with
            | Threw e => Threw e
            | Returned resp => Returned (map mapped (Server.items resp))
            end
        end
  | None => Returned Server.SAMPLE_PLAYLIST
  end.

Inductive Body : Type :=
| Listing (playlistId : list N) (items : list Obj)
| Failure (error : list N).

(** GET /api/playlist of the earlier version: [playlistId] is used as it
    comes, and a missing or empty one gives the sample. *)
Definition get_playlist (axios_get : Server.Upstream)
    (YOUTUBE_API_KEY : option (list N)) (playlistId : option (list N))
  : Z * Body :=
  if negb (truthy_opt playlistId) then
    (200, Listing (lit "SAMPLE") Server.SAMPLE_PLAYLIST)
  else
    match fetchPlaylistItemsFromYouTube axios_get YOUTUBE_API_KEY
            (default [] playlistId) with
    | Returned items => (200, Listing (default [] playlistId) items)
    | Threw _ => (500, Failure (lit "Failed to fetch playlist"))
    end.

End FirstPage.

Import Js.

(** * Facts about the server *)

Section Numbers.

Lemma Qlt_bool_iff a b : Qlt_bool a b = true <-> (a < b)%Q.
Proof.
  unfold Qlt_bool. rewrite negb_true_iff. split.
  - intros H. apply Qnot_le_lt. intros Hle.
    apply Qle_bool_iff in Hle. congruence.
  - intros H. destruct (Qle_bool b a) eqn:E; [|reflexivity].
    apply Qle_bool_iff in E. exfalso. exact (Qlt_not_le _ _ H E).
Qed.

Lemma Qlt_bool_false_iff a b : Qlt_bool a b = false <-> (b <= a)%Q.
Proof. unfold Qlt_bool. rewrite negb_false_iff. apply Qle_bool_iff. Qed.

Lemma Qlt_bool_100_800 : Qlt_bool (inject_Z 800) (inject_Z 100) = false.
Proof. reflexivity. Qed.

End Numbers.

Section Clamp.
Import Server.

Lemma clamp_finite q :
  clampSongTarget (Fin q) =
    if Qlt_bool q (inject_Z 100) then (of_Z 100)
    else if Qlt_bool (inject_Z 800) q then (of_Z 800) else Fin q.
Proof.
  unfold clampSongTarget, Math_min, Math_max, of_Z; cbn [isNaN orb lt].
  destruct (Qlt_bool q (inject_Z 100)) eqn:E; cbn [isNaN orb lt].
  - rewrite Qlt_bool_100_800. reflexivity.
  - reflexivity.
Qed.

(** C8: [clampSongTarget] always answers with a number between 100 and 800;
    a target below 100 (minus infinity included) becomes 100, a target
    above 800 (plus infinity included) becomes 800, a target in between
    comes back unchanged, and NaN becomes 100. *)
Theorem clampSongTarget_clamps (target : Number) :
  (exists q, clampSongTarget target = Fin q
             /\ (inject_Z 100 <= q)%Q /\ (q <= inject_Z 800)%Q)
  /\ (lt target (of_Z 100) = true -> clampSongTarget target = (of_Z 100))
  /\ (lt (of_Z 800) target = true -> clampSongTarget target = (of_Z 800))
  /\ (ge target (of_Z 100) = true -> ge (of_Z 800) target = true ->
      clampSongTarget target = target)
  /\ (isNaN target = true -> clampSongTarget target = (of_Z 100)).
Proof.
  destruct target as [| |q|].
  - (* NaN *)
    repeat split; try discriminate; try reflexivity.
    exists (inject_Z 100). repeat split; [apply Qle_refl | discriminate].
  - (* -Infinity *)
    repeat split; try discriminate; try reflexivity.
    exists (inject_Z 100). repeat split; [apply Qle_refl | discriminate].
  - (* finite *)
    rewrite clamp_finite.
    destruct (Qlt_bool q (inject_Z 100)) eqn:E1;
      [| destruct (Qlt_bool (inject_Z 800) q) eqn:E2].
    + apply Qlt_bool_iff in E1.
      repeat split; try reflexivity; try discriminate.
      * exists (inject_Z 100). repeat split; [apply Qle_refl | discriminate].
      * cbn. intros H. apply Qlt_bool_iff in H.
        exfalso. apply (Qlt_irrefl q).
        eapply Qlt_trans; [exact E1|].
        eapply Qlt_trans; [|exact H]. reflexivity.
      * cbn. intros H _. apply negb_true_iff, Qlt_bool_false_iff in H.
        exfalso. exact (Qlt_not_le _ _ E1 H).
    + apply Qlt_bool_iff in E2.
      repeat split; try reflexivity; try discriminate.
      * exists (inject_Z 800). repeat split; [discriminate | apply Qle_refl].
      * cbn. congruence.
      * cbn. intros _ H. apply negb_true_iff, Qlt_bool_false_iff in H.
        exfalso. exact (Qlt_not_le _ _ E2 H).
    + apply Qlt_bool_false_iff in E1. apply Qlt_bool_false_iff in E2.
      repeat split; try reflexivity; try discriminate.
      * exists q. repeat split; assumption.
      * cbn. intros H. apply Qlt_bool_iff in H.
        exfalso. exact (Qlt_not_le _ _ H E1).
      * cbn. intros H. apply Qlt_bool_iff in H.
        exfalso. exact (Qlt_not_le _ _ H E2).
  - (* +Infinity *)
    repeat split; try discriminate; try reflexivity.
    exists (inject_Z 800). repeat split; [discriminate | apply Qle_refl].
Qed.

Lemma clampSongTarget_clamps_witness :
  clampSongTarget (of_Z 7) = of_Z 100
  /\ clampSongTarget (of_Z 5000) = of_Z 800
  /\ clampSongTarget (Fin (301 # 2)) = Fin (301 # 2)
  /\ clampSongTarget NaN = of_Z 100.
Proof.
  split; [| split; [| split]].
  - destruct (clampSongTarget_clamps (of_Z 7)) as (_ & H & _).
    apply H. reflexivity.
  - destruct (clampSongTarget_clamps (of_Z 5000)) as (_ & _ & H & _).
    apply H. reflexivity.
  - destruct (clampSongTarget_clamps (Fin (301 # 2))) as (_ & _ & _ & H & _).
    apply H; reflexivity.
  - destruct (clampSongTarget_clamps NaN) as (_ & _ & _ & _ & H).
    apply H. reflexivity.
Defined.

End Clamp.

(** ** Playlist id extraction *)

Section Extract.
Import Server.

Lemma starts_with_spec pat s :
  starts_with pat s = true <-> exists rest, s = pat ++ rest.
Proof.
  revert s. induction pat as [|p pat IH]; intros s; cbn.
  - split; [intros _; exists s; reflexivity | reflexivity].
  - destruct s as [|c s]; cbn.
    + split; [discriminate | intros [rest H]; discriminate].
    + rewrite andb_true_iff, N.eqb_eq, IH. split.
      * intros [-> [rest ->]]. exists rest. reflexivity.
      * intros [rest H]. injection H as -> ->. split; eauto.
Qed.

Lemma id_run_app g post :
  forallb is_id_char g = true -> stops post -> id_run (g ++ post) = g.
Proof.
  induction g as [|a g IH]; cbn; intros Hg Hp.
  - destruct post as [|d post]; cbn; [reflexivity|].
    cbn in Hp. rewrite Hp. reflexivity.
  - apply andb_true_iff in Hg as [Ha Hg]. rewrite Ha, IH; auto.
Qed.

Lemma id_run_split s :
  exists post, s = id_run s ++ post
               /\ forallb is_id_char (id_run s) = true /\ stops post.
Proof.
  induction s as [|a s (post & Hs & Hall & Hstop)]; cbn.
  - exists []. repeat split.
  - destruct (is_id_char a) eqn:Ea.
    + exists post. cbn. rewrite Ea, Hall. repeat split; [congruence | assumption].
    + exists (a :: s). repeat split. exact Ea.
Qed.

Lemma match_here_spec s g : match_here s = Some g <-> matches_head s g.
Proof.
  unfold match_here, matches_head. split.
  - destruct s as [|c rest]; [discriminate|].
    destruct (is_query_mark c) eqn:Ec; [|discriminate].
    destruct (starts_with (lit "list=") rest) eqn:Es; [|discriminate].
    apply starts_with_spec in Es as [tail ->]. cbn [andb].
    change (skipn 5 (lit "list=" ++ tail)) with tail.
    destruct (id_run_split tail) as (post & Ht & Hall & Hstop).
    destruct (id_run tail) as [|a r] eqn:Er; [discriminate|].
    intros [= <-]. exists c, post. rewrite <- Ht.
    repeat split; try assumption. discriminate.
  - intros (c & post & -> & Hc & Hne & Hall & Hstop).
    rewrite Hc.
    assert (starts_with (lit "list=") (lit "list=" ++ g ++ post) = true) as ->
      by (apply starts_with_spec; eauto).
    cbn [andb]. change (skipn 5 (lit "list=" ++ g ++ post)) with (g ++ post).
    rewrite id_run_app by assumption.
    destruct g; [contradiction | reflexivity].
Qed.

Lemma list_match_Some s g :
  list_match s = Some g ->
  exists pre, occurs_at s pre g
              /\ forall pre' g', occurs_at s pre' g' ->
                                 (length pre <= length pre')%nat.
Proof.
  induction s as [|a s IH].
  - cbn. discriminate.
  - cbn [list_match]. destruct (match_here (a :: s)) as [g0|] eqn:E.
    + intros [= ->]. exists []. split.
      * exists (a :: s). split; [reflexivity | apply match_here_spec, E].
      * intros; cbn; lia.
    + intros H. destruct (IH H) as (pre & (suf & -> & Hm) & Hleft).
      exists (a :: pre). split.
      * exists suf. split; [reflexivity | assumption].
      * intros pre' g' (suf' & Heq & Hm').
        destruct pre' as [|b pre'].
        -- cbn in Heq. subst suf'. apply match_here_spec in Hm'. congruence.
        -- cbn in Heq. injection Heq as <- Heq. cbn.
           apply le_n_S, (Hleft pre' g'). exists suf'. split; assumption.
Qed.

Lemma list_match_None s :
  list_match s = None -> forall pre g, ~ occurs_at s pre g.
Proof.
  induction s as [|a s IH]; cbn [list_match].
  - intros _ pre g (suf & Heq & Hm).
    destruct pre; [|discriminate]. cbn in Heq. subst suf.
    destruct Hm as (c & post & Hs & _). discriminate.
  - destruct (match_here (a :: s)) as [g0|] eqn:E; [discriminate|].
    intros H pre g (suf & Heq & Hm).
    destruct pre as [|b pre].
    + cbn in Heq. subst suf. apply match_here_spec in Hm. congruence.
    + cbn in Heq. injection Heq as <- Heq.
      apply (IH H pre g). exists suf. split; assumption.
Qed.

Lemma app_same_length {A} (a b c d : list A) :
  a ++ b = c ++ d -> length a = length c -> a = c /\ b = d.
Proof.
  revert c. induction a as [|x a IH]; intros [|y c]; cbn; try discriminate.
  - auto.
  - intros [= -> H] [= Hl]. destruct (IH _ H Hl) as [-> ->]. auto.
Qed.

Lemma list_match_leftmost s pre g :
  occurs_at s pre g ->
  (forall pre' g', occurs_at s pre' g' -> (length pre <= length pre')%nat) ->
  list_match s = Some g.
Proof.
  intros Hocc Hleft. destruct (list_match s) as [g0|] eqn:E.
  - destruct (list_match_Some _ _ E) as (pre0 & Hocc0 & Hleft0).
    pose proof (Hleft _ _ Hocc0) as H1. pose proof (Hleft0 _ _ Hocc) as H2.
    destruct Hocc as (suf & Hs & Hm). destruct Hocc0 as (suf0 & Hs0 & Hm0).
    rewrite Hs in Hs0.
    destruct (app_same_length _ _ _ _ Hs0 ltac:(lia)) as [_ <-].
    apply match_here_spec in Hm, Hm0. congruence.
  - exfalso. exact (list_match_None _ E _ _ Hocc).
Qed.

Lemma includes_unfold s pat :
  includes s pat =
    starts_with pat s
    || match s with [] => false | _ :: s' => includes s' pat end.
Proof. destruct s; reflexivity. Qed.

Lemma includes_intro a pat b : includes (a ++ pat ++ b) pat = true.
Proof.
  induction a as [|x a IH]; cbn [app]; rewrite includes_unfold.
  - assert (starts_with pat (pat ++ b) = true) as ->
      by (apply starts_with_spec; eauto).
    reflexivity.
  - rewrite IH. apply orb_true_r.
Qed.

Lemma occurs_includes s pre g :
  occurs_at s pre g -> includes s (lit "list=") = true.
Proof.
  intros (suf & -> & c & post & -> & _).
  change (pre ++ c :: lit "list=" ++ g ++ post)
    with (pre ++ [c] ++ lit "list=" ++ g ++ post).
  rewrite app_assoc. apply includes_intro.
Qed.

Lemma extract_nonempty raw :
  raw <> [] ->
  extractPlaylistId (Some raw) =
    match list_match raw with
    | Some g => decodeURIComponent g
    | None => Returned (trim raw)
    end.
Proof.
  intros Hne. unfold extractPlaylistId.
  destruct raw as [|a raw]; [contradiction|]. cbn [truthy negb].
  destruct (list_match (a :: raw)) as [g|] eqn:E.
  - destruct (list_match_Some _ _ E) as (pre & Hocc & _).
    rewrite (occurs_includes _ _ _ Hocc). reflexivity.
  - destruct (includes (a :: raw) (lit "list=")); reflexivity.
Qed.

Lemma no_match_before_leftmost (raw pre : list N) :
  no_match_before raw (length pre) = true ->
  forall pre' g', occurs_at raw pre' g' -> (length pre <= length pre')%nat.
Proof.
  unfold no_match_before. rewrite forallb_forall.
  intros H pre' g' (suf & -> & Hm).
  destruct (Nat.le_gt_cases (length pre) (length pre')) as [|Hlt]; [assumption|].
  assert (In (length pre') (seq 0 (length pre))) as Hin by (apply in_seq; lia).
  specialize (H (length pre') Hin).
  rewrite skipn_app, skipn_all, Nat.sub_diag in H.
  change (skipn 0 suf) with suf in H. cbn [app] in H.
  apply match_here_spec in Hm. rewrite Hm in H. discriminate H.
Qed.

End Extract.

Section ExtractClaims.
Import Server.

Lemma continuation_octets_length n : forall s bs rest,
  continuation_octets n s = Some (bs, rest) -> (length rest <= length s)%nat.
Proof.
  induction n as [|n IH]; intros s bs rest; cbn [continuation_octets].
  - intros [= _ <-]. lia.
  - destruct s as [|c [|h1 [|h2 s']]]; try discriminate.
    destruct (c =? 37)%N; [|discriminate].
    destruct (ParseHexOctet h1 h2); [|discriminate].
    destruct (continuation_octets n s') as [[bs' rest']|] eqn:E; [|discriminate].
    intros [= _ <-]. specialize (IH _ _ _ E). cbn [length]. lia.
Qed.

(** The budget of [decodeURIComponent] is never the reason why [Decode]
    stops: any budget of at least one round per code unit gives the same
    outcome. *)
Lemma Decode_budget b1 : forall b2 s,
  (length s <= b1)%nat -> (length s <= b2)%nat -> Decode b1 s = Decode b2 s.
Proof.
  induction b1 as [|b1 IH]; intros b2 s H1 H2.
  - destruct s; [|cbn in H1; lia]. destruct b2; reflexivity.
  - destruct s as [|c rest]; [destruct b2; reflexivity|].
    destruct b2 as [|b2]; [cbn in H2; lia|].
    cbn [length] in H1, H2. cbn [Decode].
    destruct (c =? 37)%N.
    + destruct rest as [|h1 [|h2 rest2]]; try reflexivity.
      cbn [length] in H1, H2.
      destruct (ParseHexOctet h1 h2); [|reflexivity].
      destruct (leading_ones n) as [|[|m]]; [| reflexivity |].
      * rewrite (IH b2 rest2) by lia. reflexivity.
      * destruct (2 <? m)%nat; [reflexivity|].
        destruct (continuation_octets (S m) rest2) as [[bs rest3]|] eqn:E;
          [|reflexivity].
        apply continuation_octets_length in E.
        destruct (utf8_code_point (n :: bs)); [|reflexivity].
        rewrite (IH b2 rest3) by lia. reflexivity.
    + rewrite (IH b2 rest) by lia. reflexivity.
Qed.

Lemma Decode_plain budget g :
  (length g <= budget)%nat ->
  forallb (fun c => negb (c =? 37)%N) g = true ->
  Decode budget g = Returned g.
Proof.
  revert g. induction budget as [|budget IH]; intros [|c g]; cbn [length Decode forallb];
    try reflexivity; try lia.
  intros Hlen Hall. apply andb_true_iff in Hall as [Hc Hall].
  apply negb_true_iff in Hc. rewrite Hc, IH by (assumption || lia).
  reflexivity.
Qed.

(** A text without a percent sign decodes to itself. *)
Lemma decodeURIComponent_plain g :
  forallb (fun c => negb (c =? 37)%N) g = true ->
  decodeURIComponent g = Returned g.
Proof. intros H. apply Decode_plain; [lia | exact H]. Qed.

(** C10, as written, fails: on ["?list=&x=1"] the text between ['list=']
    and the next ['&'] is empty, yet the function answers with the whole
    trimmed input. *)
Lemma extract_as_written_fails : ~ extract_as_written.
Proof.
  intros H.
  specialize (H [] [] (lit "&x=1") 63%N eq_refl eq_refl eq_refl).
  vm_compute in H. discriminate H.
Qed.

(** C10, amended: a missing or empty input gives the empty string; when
    the pattern (a ['?'] or ['&'], then ['list='], then a non-empty run of
    characters other than ['&'] and ['#']) occurs, the leftmost occurrence
    decides and the result is [decodeURIComponent] of its maximal run,
    which is the run itself when it holds no percent sign and is a thrown
    [URIError] when it is malformed; every other non-empty input comes back
    trimmed. *)
Theorem extractPlaylistId_leftmost :
  extractPlaylistId None = Returned []
  /\ extractPlaylistId (Some []) = Returned []
  /\ (forall raw pre g,
        occurs_at raw pre g ->
        (forall pre' g', occurs_at raw pre' g' ->
                         (length pre <= length pre')%nat) ->
        extractPlaylistId (Some raw) = decodeURIComponent g
        /\ (forallb (fun c => negb (c =? 37)%N) g = true ->
            extractPlaylistId (Some raw) = Returned g))
  /\ (forall raw,
        raw <> [] ->
        (forall pre g, ~ occurs_at raw pre g) ->
        extractPlaylistId (Some raw) = Returned (trim raw)).
Proof.
  split; [reflexivity|]. split; [reflexivity|]. split.
  - intros raw pre g Hocc Hleft.
    assert (raw <> []) as Hne.
    { destruct Hocc as (suf & -> & c & post & -> & _).
      destruct pre; discriminate. }
    assert (extractPlaylistId (Some raw) = decodeURIComponent g) as Heq.
    { rewrite (extract_nonempty _ Hne).
      rewrite (list_match_leftmost _ _ _ Hocc Hleft). reflexivity. }
    split; [exact Heq|].
    intros Hplain. rewrite Heq. apply decodeURIComponent_plain, Hplain.
  - intros raw Hne Hnone. rewrite (extract_nonempty _ Hne).
    destruct (list_match raw) as [g|] eqn:E; [|reflexivity].
    destruct (list_match_Some _ _ E) as (pre & Hocc & _).
    exfalso. exact (Hnone _ _ Hocc).
Qed.

Lemma extractPlaylistId_leftmost_witness :
  extractPlaylistId
    (Some (lit "https://www.youtube.com/watch?v=abc&list=PL2vNBvHyEXi#t"))
  = Returned (lit "PL2vNBvHyEXi")
  /\ extractPlaylistId (Some (lit "  PL2vNBvHyEXi ")) = Returned (lit "PL2vNBvHyEXi").
Proof.
  destruct extractPlaylistId_leftmost as (_ & _ & Hocc & Hnone).
  split.
  - apply (Hocc _ (lit "https://www.youtube.com/watch?v=abc") (lit "PL2vNBvHyEXi")).
    + exists (lit "&list=PL2vNBvHyEXi#t"). split; [reflexivity|].
      exists 38%N, (lit "#t"). repeat split. discriminate.
    + apply no_match_before_leftmost. vm_compute. reflexivity.
    + vm_compute. reflexivity.
  - apply (Hnone (lit "  PL2vNBvHyEXi ")).
    + discriminate.
    + apply list_match_None. vm_compute. reflexivity.
Defined.

Example extract_full_url :
  extractPlaylistId
    (Some (lit "https://www.youtube.com/playlist?list=PL2vNBvHyEXihiuQ2htu6rLcOjw7lzsKcD"))
  = Returned (lit "PL2vNBvHyEXihiuQ2htu6rLcOjw7lzsKcD").
Proof. vm_compute. reflexivity. Qed.

Example extract_decodes_escapes :
  extractPlaylistId (Some (lit "?list=PL%20x%E2%82%AC"))
  = Returned (lit "PL x" ++ [8364%N]).
Proof. vm_compute. reflexivity. Qed.

Example extract_malformed_escape_throws :
  extractPlaylistId (Some (lit "?list=%zz")) = Threw URIError.
Proof. vm_compute. reflexivity. Qed.

Example extract_takes_leftmost :
  extractPlaylistId (Some (lit "?list=a&list=b")) = Returned (lit "a").
Proof. vm_compute. reflexivity. Qed.

End ExtractClaims.

(** ** The paginated playlist fetch *)

Section Fetch.
Import Server.

Variable axios_get : Upstream.
Variables apiKey playlistId : list N.

Lemma ceiling_gt (n : Z) (q : Q) :
  Qlt_bool (inject_Z n) q = true -> (n < Qceiling q)%Z.
Proof.
  intros H. apply Qlt_bool_iff in H.
  pose proof (Qle_ceiling q) as Hc.
  rewrite Zlt_Qlt. eapply Qlt_le_trans; eassumption.
Qed.

Lemma fetch_loop_unfold targetCount fuel k acc pageToken :
  fetch_loop axios_get apiKey playlistId targetCount fuel k acc pageToken =
    if negb (lt (of_nat (length acc)) targetCount) then Some (Returned acc)
    else
      match fuel with
      | O => None
      | S fuel' =>
          match playlistItems_url playlistId pageToken apiKey with
          | Threw e => Some (Threw e)
          | Returned url =>
              match axios_get k url with
              | Threw e => Some (Threw e)
              | Returned resp =>
                  let acc' := acc ++ map mapped (items resp) in
                  if negb (truthy_opt (nextPageToken resp))
                     || ge (of_nat (length acc')) targetCount
                  then Some (Returned acc')
                  else fetch_loop axios_get apiKey playlistId targetCount
                         fuel' (S k) acc' (default [] (nextPageToken resp))
              end
          end
      end.
Proof. destruct fuel; reflexivity. Qed.

(** A larger budget never changes an outcome already reached. *)
Lemma fetch_loop_mono targetCount fuel fuel' k acc pageToken out :
  (fuel <= fuel')%nat ->
  fetch_loop axios_get apiKey playlistId targetCount fuel k acc pageToken
  = Some out ->
  fetch_loop axios_get apiKey playlistId targetCount fuel' k acc pageToken
  = Some out.
Proof.
  revert fuel' k acc pageToken.
  induction fuel as [|fuel IH]; intros fuel' k acc pageToken Hle;
    rewrite (fetch_loop_unfold _ fuel'), fetch_loop_unfold.
  - destruct (negb (lt (of_nat (length acc)) targetCount)); [auto | discriminate].
  - destruct (negb (lt (of_nat (length acc)) targetCount)); [auto|].
    destruct fuel' as [|fuel']; [lia|].
    destruct (playlistItems_url playlistId pageToken apiKey) as [url|e]; [|auto].
    destruct (axios_get k url) as [resp|e]; [|auto].
    cbv zeta.
    destruct (negb (truthy_opt (nextPageToken resp))
              || ge (of_nat (length (acc ++ map mapped (items resp)))) targetCount);
      [auto|].
    apply IH. lia.
Qed.

(** What the loop returns is what it started with followed by the records
    of the pages it read, in the order it read them. *)
Lemma fetch_loop_pages targetCount fuel k acc pageToken out :
  fetch_loop axios_get apiKey playlistId targetCount fuel k acc pageToken
  = Some (Returned out) ->
  exists n, (n <= fuel)%nat
            /\ out = acc ++ records_of
                       (pages_from axios_get apiKey playlistId n k pageToken).
Proof.
  revert k acc pageToken.
  induction fuel as [|fuel IH]; intros k acc pageToken;
    rewrite fetch_loop_unfold.
  - destruct (negb (lt (of_nat (length acc)) targetCount)); [|discriminate].
    intros [= <-]. exists 0%nat. cbn. rewrite app_nil_r. auto.
  - destruct (negb (lt (of_nat (length acc)) targetCount)).
    { intros [= <-]. exists 0%nat. cbn. rewrite app_nil_r. split; [lia | auto]. }
    destruct (playlistItems_url playlistId pageToken apiKey) as [url|e] eqn:Eu;
      [|discriminate].
    destruct (axios_get k url) as [resp|e] eqn:En; [|discriminate].
    cbv zeta.
    destruct (negb (truthy_opt (nextPageToken resp))
              || ge (of_nat (length (acc ++ map mapped (items resp)))) targetCount).
    + intros [= <-]. exists 1%nat. cbn. rewrite Eu, En. cbn.
      rewrite app_nil_r. split; [lia | reflexivity].
    + intros H. destruct (IH _ _ _ H) as (n & Hn & ->).
      exists (S n). cbn. rewrite Eu, En. cbn. unfold records_of.
      rewrite <- app_assoc. split; [lia | reflexivity].
Qed.

Section Finite.
Variable q : Q.
Hypothesis pages_progress : progresses axios_get.

Lemma fetch_loop_terminates fuel k acc pageToken :
  (Qceiling q - Z.of_nat (length acc) <= Z.of_nat fuel)%Z ->
  exists out,
    fetch_loop axios_get apiKey playlistId (Fin q) fuel k acc pageToken
    = Some out.
Proof.
  revert k acc pageToken.
  induction fuel as [|fuel IH]; intros k acc pageToken Hfuel;
    rewrite fetch_loop_unfold; cbn [lt of_nat of_Z].
  - destruct (Qlt_bool (inject_Z (Z.of_nat (length acc))) q) eqn:E;
      cbn [negb]; [|eauto].
    apply ceiling_gt in E. lia.
  - destruct (Qlt_bool (inject_Z (Z.of_nat (length acc))) q) eqn:E;
      cbn [negb]; [|eauto].
    destruct (playlistItems_url playlistId pageToken apiKey) as [url|e];
      [|eauto].
    destruct (axios_get k url) as [resp|e] eqn:En; [|eauto].
    cbv zeta.
    destruct (truthy_opt (nextPageToken resp)) eqn:Et; cbn [negb orb]; [|eauto].
    destruct (ge _ _); [eauto|].
    apply IH. pose proof (pages_progress _ _ _ En Et) as Hne.
    rewrite length_app, length_map.
    destruct (items resp); [contradiction|]. cbn [length]. lia.
Qed.

End Finite.

Lemma fetch_loop_ends n targetCount :
  ends_by axios_get n ->
  forall fuel k acc pageToken,
    (n + 1 <= k + fuel)%nat -> (1 <= fuel)%nat ->
    exists out,
      fetch_loop axios_get apiKey playlistId targetCount fuel k acc pageToken
      = Some out.
Proof.
  intros Hend. induction fuel as [|fuel IH]; intros k acc pageToken Hn H1;
    [lia|].
  rewrite fetch_loop_unfold.
  destruct (negb (lt (of_nat (length acc)) targetCount)); [eauto|].
  destruct (playlistItems_url playlistId pageToken apiKey) as [url|e]; [|eauto].
  destruct (axios_get k url) as [resp|e] eqn:En; [|eauto].
  cbv zeta.
  destruct (truthy_opt (nextPageToken resp)) eqn:Et; cbn [negb orb]; [|eauto].
  destruct (ge _ _); [eauto|].
  destruct (Nat.le_gt_cases n k) as [Hle|Hlt].
  - rewrite (Hend _ _ _ Hle En) in Et. discriminate.
  - apply IH; lia.
Qed.

(** Once the loop has been entered the target is a number, and [>=] is
    the negation of [<] on the lengths compared with it. *)
Lemma ge_not_lt (a b : nat) targetCount :
  lt (of_nat a) targetCount = true ->
  ge (of_nat b) targetCount = negb (lt (of_nat b) targetCount).
Proof. destruct targetCount; cbn; try discriminate; reflexivity. Qed.

Lemma pages_from_S n k pageToken :
  pages_from axios_get apiKey playlistId (S n) k pageToken =
    match playlistItems_url playlistId pageToken apiKey with
    | Threw _ => []
    | Returned url =>
        match axios_get k url with
        | Threw _ => []
        | Returned resp =>
            resp :: pages_from axios_get apiKey playlistId n (S k)
                      (default [] (nextPageToken resp))
        end
    end.
Proof. reflexivity. Qed.

Lemma pages_from_cons n k pageToken resp rest :
  pages_from axios_get apiKey playlistId (S n) k pageToken = resp :: rest ->
  exists url,
    playlistItems_url playlistId pageToken apiKey = Returned url
    /\ axios_get k url = Returned resp
    /\ pages_from axios_get apiKey playlistId n (S k)
         (default [] (nextPageToken resp)) = rest.
Proof.
  cbn. destruct (playlistItems_url playlistId pageToken apiKey) as [url|e];
    [|discriminate].
  destruct (axios_get k url) as [resp'|e] eqn:En; [|discriminate].
  intros [= -> <-]. eauto.
Qed.

(** Completeness for failure: when the loop goes on over [pages] and the
    request after them fails, the loop rejects with that error. *)
Lemma fetch_loop_fails targetCount e pages : forall fuel k acc pageToken,
  lt (of_nat (length acc)) targetCount = true ->
  pages_from axios_get apiKey playlistId (length pages) k pageToken = pages ->
  all_go_on targetCount (length acc) pages = true ->
  request_fails axios_get apiKey playlistId (k + length pages)
    (token_after pageToken pages) e ->
  (length pages < fuel)%nat ->
  fetch_loop axios_get apiKey playlistId targetCount fuel k acc pageToken
  = Some (Threw e).
Proof.
  induction pages as [|resp rest IH]; intros fuel k acc pageToken Hlt Hpages
    Hgo Hfail Hfuel; (destruct fuel as [|fuel]; [cbn in Hfuel; lia|]);
    rewrite fetch_loop_unfold, Hlt; cbn [negb].
  - unfold request_fails in Hfail. cbn in Hfail.
    rewrite Nat.add_0_r in Hfail.
    destruct (playlistItems_url playlistId pageToken apiKey) as [url|e'];
      [rewrite Hfail; reflexivity | congruence].
  - cbn [length] in Hpages.
    apply pages_from_cons in Hpages as (url & -> & -> & Hrest).
    cbn [all_go_on] in Hgo.
    apply andb_true_iff in Hgo as [Hgo Hall].
    apply andb_true_iff in Hgo as [Htok Hge].
    cbv zeta. rewrite length_app, length_map, Htok.
    apply negb_true_iff in Hge. rewrite Hge. cbn [negb orb].
    apply IH.
    + rewrite length_app, length_map.
      rewrite (ge_not_lt _ _ _ Hlt) in Hge.
      apply negb_false_iff in Hge. exact Hge.
    + exact Hrest.
    + rewrite length_app, length_map. exact Hall.
    + cbn [length token_after fold_left] in Hfail.
      replace (S k + length rest)%nat with (k + S (length rest))%nat by lia.
      exact Hfail.
    + cbn [length] in Hfuel. lia.
Qed.

(** Soundness: an outcome of the loop is the rejection of the first
    request that fails, reached over pages that all go on, or the records
    of the pages up to the first one after which the loop stops. *)
Lemma fetch_loop_sound targetCount : forall fuel k acc pageToken out,
  lt (of_nat (length acc)) targetCount = true ->
  fetch_loop axios_get apiKey playlistId targetCount fuel k acc pageToken
  = Some out ->
  match out with
  | Returned result =>
      exists front last,
        pages_from axios_get apiKey playlistId (S (length front)) k pageToken
        = front ++ [last]
        /\ all_go_on targetCount (length acc) front = true
        /\ stops_after targetCount
             (length acc + length (records_of front)) last = true
        /\ result = acc ++ records_of (front ++ [last])
        /\ (length front < fuel)%nat
  | Threw e =>
      exists pages,
        pages_from axios_get apiKey playlistId (length pages) k pageToken
        = pages
        /\ all_go_on targetCount (length acc) pages = true
        /\ request_fails axios_get apiKey playlistId (k + length pages)
             (token_after pageToken pages) e
        /\ (length pages < fuel)%nat
  end.
Proof.
  induction fuel as [|fuel IH]; intros k acc pageToken out Hlt;
    rewrite fetch_loop_unfold, Hlt; cbn [negb]; [discriminate|].
  destruct (playlistItems_url playlistId pageToken apiKey) as [url|e] eqn:Eu.
  2:{ intros [= <-]. exists [].
      cbn [length pages_from all_go_on token_after fold_left].
      unfold request_fails. rewrite Nat.add_0_r, Eu.
      split; [reflexivity|]. split; [reflexivity|].
      split; [reflexivity | lia]. }
  destruct (axios_get k url) as [resp|e] eqn:En.
  2:{ intros [= <-]. exists [].
      cbn [length pages_from all_go_on token_after fold_left].
      unfold request_fails. rewrite Nat.add_0_r, Eu.
      split; [reflexivity|]. split; [reflexivity|].
      split; [exact En | lia]. }
  cbv zeta. rewrite length_app, length_map.
  destruct (negb (truthy_opt (nextPageToken resp))
            || ge (of_nat (length acc + length (items resp))) targetCount)
    eqn:Estop.
  - intros [= <-]. exists [], resp. cbn [length app].
    rewrite pages_from_S, Eu, En. cbn [pages_from]. cbn [all_go_on records_of flat_map length].
    rewrite Nat.add_0_r, app_nil_r.
    split; [reflexivity|]. split; [reflexivity|].
    split; [exact Estop|]. split; [reflexivity | lia].
  - apply orb_false_iff in Estop as [Htok Hge].
    apply negb_false_iff in Htok.
    assert (lt (of_nat (length (acc ++ map mapped (items resp)))) targetCount
            = true) as Hlt'.
    { rewrite length_app, length_map.
      rewrite (ge_not_lt _ _ _ Hlt) in Hge.
      apply negb_false_iff in Hge. exact Hge. }
    intros Hrec. specialize (IH _ _ _ _ Hlt' Hrec).
    rewrite length_app, length_map in IH.
    destruct out as [result|e].
    + destruct IH as (front & last & Hpages & Hgo & Hstop & -> & Hfuel).
      exists (resp :: front), last.
      split.
      { cbn [length]. rewrite pages_from_S, Eu, En, Hpages. reflexivity. }
      split.
      { cbn [all_go_on]. rewrite Htok, Hge, Hgo. reflexivity. }
      split.
      { cbn [records_of flat_map]. rewrite length_app, length_map.
        rewrite <- Hstop. unfold records_of. f_equal. lia. }
      split; [|cbn [length]; lia].
      cbn [app records_of flat_map]. rewrite <- app_assoc. reflexivity.
    + destruct IH as (pages & Hpages & Hgo & Hfail & Hfuel).
      exists (resp :: pages).
      split.
      { cbn [length]. rewrite pages_from_S, Eu, En, Hpages. reflexivity. }
      split.
      { cbn [all_go_on]. rewrite Htok, Hge, Hgo. reflexivity. }
      split; [|cbn [length]; lia].
      cbn [length token_after fold_left].
      replace (k + S (length pages))%nat with (S k + length pages)%nat by lia.
      exact Hfail.
Qed.

End Fetch.

Section FetchClaims.
Import Server.

Lemma empty_pages_stuck fuel k pageToken :
  fetch_loop empty_pages (lit "key") (lit "PL1") (of_Z 100) fuel k [] pageToken
  = None.
Proof.
  revert k pageToken. induction fuel as [|fuel IH]; intros k pageToken.
  - reflexivity.
  - rewrite fetch_loop_unfold. cbn. apply IH.
Qed.

(** C3, as written, fails: against an upstream that keeps answering with
    empty pages that carry a next-page token, no number of rounds brings
    the fetch to an outcome. *)
Lemma fetch_can_run_forever :
  ~ exists fuel out,
      fetchPlaylistItemsFromYouTube empty_pages (Some (lit "key"))
        (lit "PL1") (of_Z 100) fuel = Some out.
Proof.
  intros (fuel & out & H). unfold fetchPlaylistItemsFromYouTube in H.
  cbn [truthy lit map list_ascii_of_string negb] in H.
  change (map N_of_ascii (list_ascii_of_string "key")) with (lit "key") in H.
  rewrite empty_pages_stuck in H. discriminate H.
Qed.

(** C3, amended: without an API key the fetch returns the sample playlist
    at once, whatever the upstream.  With a key the fetch reaches an
    outcome, and keeps it under any larger budget, in two cases: the target
    is not +Infinity and every upstream page that announces a next page
    holds at least one item (then [rounds targetCount] page requests
    suffice), or the playlist is finite (then one request per page
    suffices).  Every outcome it reaches with a key is one of three.  With
    a target that 0 is not below, no request is made and the result is
    empty.  Otherwise it rejects with the error of the first request that
    fails, which is the URIError of building the address or the rejection
    of [axios.get], after pages that all announced a next page and left the
    records below the target; or it returns [slice(0, targetCount)] of the
    records, in upstream order, of the pages up to the first one that
    announces no next page or brings the records up to the target. *)
Theorem fetch_terminates_on_progress
    (axios_get : Upstream) (YOUTUBE_API_KEY : option (list N))
    (playlistId : list N) (targetCount : Number) :
  (truthy_opt YOUTUBE_API_KEY = false ->
   forall fuel,
     fetchPlaylistItemsFromYouTube axios_get YOUTUBE_API_KEY playlistId
       targetCount fuel = Some (Returned SAMPLE_PLAYLIST))
  /\ (forall bound,
        (targetCount <> PosInf /\ progresses axios_get
         /\ (rounds targetCount <= bound)%nat)
        \/ (exists n, ends_by axios_get n /\ (n < bound)%nat) ->
        exists out,
          forall fuel, (bound <= fuel)%nat ->
            fetchPlaylistItemsFromYouTube axios_get YOUTUBE_API_KEY
              playlistId targetCount fuel = Some out)
  /\ (forall apiKey fuel out,
        YOUTUBE_API_KEY = Some apiKey ->
        truthy apiKey = true ->
        fetchPlaylistItemsFromYouTube axios_get YOUTUBE_API_KEY playlistId
          targetCount fuel = Some out ->
        match out with
        | Returned result =>
            (lt (of_Z 0) targetCount = false /\ result = [])
            \/ (lt (of_Z 0) targetCount = true
                /\ exists front last,
                    pages_from axios_get apiKey playlistId
                      (S (length front)) 0 [] = front ++ [last]
                    /\ all_go_on targetCount 0 front = true
                    /\ stops_after targetCount (length (records_of front))
                         last = true
                    /\ result = slice0 (records_of (front ++ [last]))
                                  targetCount
                    /\ (length front < fuel)%nat)
        | Threw e =>
            lt (of_Z 0) targetCount = true
            /\ exists pages,
                pages_from axios_get apiKey playlistId (length pages) 0 []
                = pages
                /\ all_go_on targetCount 0 pages = true
                /\ request_fails axios_get apiKey playlistId (length pages)
                     (token_after [] pages) e
                /\ (length pages < fuel)%nat
        end).
Proof.
  split; [|split].
  - intros Ekey fuel. unfold fetchPlaylistItemsFromYouTube.
    destruct YOUTUBE_API_KEY as [apiKey|]; [|reflexivity].
    cbn in Ekey. rewrite Ekey. reflexivity.
  - intros bound Hcase.
    destruct (truthy_opt YOUTUBE_API_KEY) eqn:Ekey.
    + destruct YOUTUBE_API_KEY as [apiKey|]; [|discriminate]. cbn in Ekey.
      assert (exists out0,
                 fetch_loop axios_get apiKey playlistId targetCount
                   bound 0 [] [] = Some out0) as [out0 Hout0].
      { destruct Hcase as [(Hfin & Hprog & Hb) | (n & Hend & Hb)].
        - destruct targetCount as [| |q|];
            try (destruct bound; cbn; eauto; fail); [|congruence].
          apply fetch_loop_terminates; [exact Hprog|]. cbn in Hb |- *. lia.
        - apply (fetch_loop_ends _ _ _ n); [exact Hend | lia | lia]. }
      unfold fetchPlaylistItemsFromYouTube. rewrite Ekey. cbn [negb].
      destruct out0 as [acc|e].
      * exists (Returned (slice0 acc targetCount)). intros fuel Hle.
        rewrite (fetch_loop_mono _ _ _ _ _ _ _ _ _ _ Hle Hout0). reflexivity.
      * exists (Threw e). intros fuel Hle.
        rewrite (fetch_loop_mono _ _ _ _ _ _ _ _ _ _ Hle Hout0). reflexivity.
    + exists (Returned SAMPLE_PLAYLIST). intros fuel _.
      unfold fetchPlaylistItemsFromYouTube.
      destruct YOUTUBE_API_KEY as [apiKey|]; [|reflexivity].
      cbn in Ekey. rewrite Ekey. reflexivity.
  - intros apiKey fuel out -> Hkey. unfold fetchPlaylistItemsFromYouTube.
    rewrite Hkey. cbn [negb].
    destruct (lt (of_Z 0) targetCount) eqn:Hlt.
    + destruct (fetch_loop axios_get apiKey playlistId targetCount fuel 0 [] [])
        as [out0|] eqn:Hloop; [|discriminate].
      pose proof (fetch_loop_sound axios_get apiKey playlistId targetCount
                    fuel 0%nat [] [] out0 Hlt Hloop) as Hsound.
      destruct out0 as [acc|e]; intros [= <-].
      * right. split; [reflexivity|].
        destruct Hsound as (front & last & Hpages & Hgo & Hstop & -> & Hfuel).
        exists front, last. cbn [length Nat.add app] in *. auto.
      * split; [reflexivity|].
        destruct Hsound as (pages & Hpages & Hgo & Hfail & Hfuel).
        exists pages. cbn [length Nat.add] in *. auto.
    + rewrite fetch_loop_unfold. cbn [length].
      change (of_nat 0) with (of_Z 0). rewrite Hlt. cbn [negb].
      intros [= <-]. left. split; [reflexivity|].
      unfold slice0. apply firstn_nil.
Qed.

Lemma fetch_terminates_on_progress_witness :
  fetchPlaylistItemsFromYouTube endless_pages None (lit "PL1") (of_Z 100) 0
  = Some (Returned SAMPLE_PLAYLIST)
  /\ (exists out,
        fetchPlaylistItemsFromYouTube endless_pages (Some (lit "key"))
          (lit "PL1") (clampSongTarget NaN) 100 = Some out)
  /\ (exists out,
        fetchPlaylistItemsFromYouTube one_page (Some (lit "key"))
          (lit "PL1") PosInf 1 = Some out)
  /\ (exists pages,
        pages_from second_request_fails (lit "key") (lit "PL1")
          (length pages) 0 [] = pages
        /\ request_fails second_request_fails (lit "key") (lit "PL1")
             (length pages) (token_after [] pages)
             (RequestFailed (lit "Request failed with status code 403"))).
Proof.
  split; [|split; [|split]].
  - destruct (fetch_terminates_on_progress endless_pages None (lit "PL1")
                (of_Z 100)) as (Hsample & _).
    apply Hsample. reflexivity.
  - destruct (fetch_terminates_on_progress endless_pages (Some (lit "key"))
                (lit "PL1") (clampSongTarget NaN)) as (_ & Hrun & _).
    destruct (Hrun 100%nat) as [out Hout].
    + left. split; [discriminate|]. split; [|vm_compute; lia].
      intros k url resp [= <-]. cbn. discriminate.
    + exists out. apply Hout. lia.
  - destruct (fetch_terminates_on_progress one_page (Some (lit "key"))
                (lit "PL1") PosInf) as (_ & Hrun & _).
    destruct (Hrun 1%nat) as [out Hout].
    + right. exists 0%nat. split; [|lia].
      intros k url resp _ [= <-]. reflexivity.
    + exists out. apply Hout. lia.
  - destruct (fetch_terminates_on_progress second_request_fails
                (Some (lit "key")) (lit "PL1") (of_Z 100))
      as (_ & _ & Hout).
    destruct (Hout (lit "key") 2%nat
                (Threw (RequestFailed
                          (lit "Request failed with status code 403")))
                eq_refl eq_refl eq_refl)
      as (_ & pages & Hpages & _ & Hfail & _).
    exists pages. split; assumption.
Defined.

End FetchClaims.

Section ListingClaims.
Import Server.

(** C4, as written, fails: the first page arrives, the second request
    fails, and the route answers 500 with an error message and no items. *)
Lemma partial_pages_are_dropped : ~ partial_pages_survive.
Proof.
  intros H.
  destruct (H second_request_fails (lit "key") sample_query 2%nat
              failed_playlist (lit "PL1")
              {| items := [item "3JZ_D3ELwOQ" "Californication" 0];
                 nextPageToken := Some (lit "CAUQAA") |})
    as (kept & Hbody & _); try reflexivity.
  discriminate Hbody.
Qed.

(** C4, amended: when the loop has gone on over any number of pages and
    the next request fails, the fetch rejects with the error of that
    request and the items accumulated from the earlier pages are discarded
    with the local array; the /api/playlist route then answers with status
    500 and the body [{error: 'Failed to fetch playlist'}], which carries
    no items. *)
Theorem failed_request_discards_pages
    (axios_get : Upstream) (apiKey playlistId : list N)
    (targetCount : Number) (pages : list Page) (e : Error) (fuel : nat) :
  truthy apiKey = true ->
  lt (of_Z 0) targetCount = true ->
  pages_from axios_get apiKey playlistId (length pages) 0 [] = pages ->
  all_go_on targetCount 0 pages = true ->
  request_fails axios_get apiKey playlistId (length pages)
    (token_after [] pages) e ->
  (length pages < fuel)%nat ->
  fetchPlaylistItemsFromYouTube axios_get (Some apiKey) playlistId
    targetCount fuel = Some (Threw e)
  /\ forall query : PlaylistQuery,
       extractPlaylistId
         (Some (first_truthy (q_playlistId query) (q_playlistUrl query)))
       = Returned playlistId ->
       truthy playlistId = true ->
       clampSongTarget (q_maxSongs query) = targetCount ->
       exists resp,
         get_playlist axios_get (Some apiKey) query fuel = Some resp
         /\ status resp = 500
         /\ body resp = ErrorBody (lit "Failed to fetch playlist")
         /\ body_items (body resp) = None.
Proof.
  intros Hkey Hlt Hpages Hgo Hfail Hfuel.
  assert (fetchPlaylistItemsFromYouTube axios_get (Some apiKey) playlistId
            targetCount fuel = Some (Threw e)) as Hfetch.
  { unfold fetchPlaylistItemsFromYouTube. rewrite Hkey. cbn [negb].
    rewrite (fetch_loop_fails axios_get apiKey playlistId targetCount e pages
               fuel 0%nat [] []); auto. }
  split; [exact Hfetch|].
  intros query Hpid Htruthy Htarget. exists failed_playlist.
  split; [|repeat split].
  unfold get_playlist. rewrite Hpid, Htruthy, Htarget, Hfetch. reflexivity.
Qed.

Lemma failed_request_discards_pages_witness :
  fetchPlaylistItemsFromYouTube second_request_fails (Some (lit "key"))
    (lit "PL1") (of_Z 100) 2
  = Some (Threw (RequestFailed (lit "Request failed with status code 403")))
  /\ exists resp,
       get_playlist second_request_fails (Some (lit "key")) sample_query 2
       = Some resp
       /\ status resp = 500
       /\ body resp = ErrorBody (lit "Failed to fetch playlist")
       /\ body_items (body resp) = None.
Proof.
  destruct (failed_request_discards_pages second_request_fails (lit "key")
              (lit "PL1") (of_Z 100)
              [ {| items := [item "3JZ_D3ELwOQ" "Californication" 0];
                   nextPageToken := Some (lit "CAUQAA") |} ]
              (RequestFailed (lit "Request failed with status code 403"))
              2%nat)
    as [Hfetch Hroute]; try reflexivity.
  - cbn. lia.
  - split; [exact Hfetch|].
    apply (Hroute sample_query); reflexivity.
Defined.

Lemma In_firstn {A} (x : A) n l : In x (firstn n l) -> In x l.
Proof.
  revert l. induction n as [|n IH]; intros [|y l]; cbn; try tauto.
  intros [->|H]; [left; reflexivity | right; apply IH, H].
Qed.

Lemma mapped_dom it : dom (mapped it) = {["videoId"; "title"; "position"]}.
Proof.
  unfold mapped. rewrite !dom_insert_L, dom_empty_L. set_solver.
Qed.

Lemma sample_dom id name : dom (sample id name) = {["videoId"; "title"]}.
Proof.
  unfold sample. rewrite !dom_insert_L, dom_empty_L. set_solver.
Qed.

Lemma listing_dom axios_get KEY playlistId targetCount fuel result r :
  fetchPlaylistItemsFromYouTube axios_get KEY playlistId targetCount fuel
  = Some (Returned result) ->
  In r result ->
  if truthy_opt KEY then dom r = {["videoId"; "title"; "position"]}
  else dom r = {["videoId"; "title"]}.
Proof.
  unfold fetchPlaylistItemsFromYouTube. intros H Hin.
  assert (In r SAMPLE_PLAYLIST -> dom r = {["videoId"; "title"]}) as Hsample.
  { cbn. intros [<-|[<-|[<-|[<-|[]]]]]; apply sample_dom. }
  destruct KEY as [apiKey|]; cbn [truthy_opt].
  - destruct (truthy apiKey); cbn [negb] in H.
    + destruct (fetch_loop _ _ _ _ _ _ _ _) as [[acc|e]|] eqn:E;
        try discriminate.
      injection H as <-. apply In_firstn in Hin.
      destruct (fetch_loop_pages _ _ _ _ _ _ _ _ _ E) as (n & _ & ->).
      cbn [app] in Hin. unfold records_of in Hin.
      apply in_flat_map in Hin as (resp & _ & Hin).
      apply in_map_iff in Hin as (it & <- & _). apply mapped_dom.
    + injection H as <-. auto.
  - injection H as <-. auto.
Qed.

Lemma three_keys_not_four (r : Obj) :
  dom r ⊆ {["videoId"; "title"; "position"]} -> ~ has_four_fields r.
Proof.
  intros Hdom (a & b & c & d & Hnd & Ha & Hb & Hc & Hd).
  apply elem_of_dom, Hdom in Ha, Hb, Hc, Hd.
  apply NoDup_cons in Hnd as [Hab Hnd].
  apply NoDup_cons in Hnd as [Hbc Hnd].
  apply NoDup_cons in Hnd as [Hcd _].
  rewrite !elem_of_union, !elem_of_singleton in Ha, Hb, Hc, Hd.
  apply not_elem_of_cons in Hab as [Hab Hacd].
  apply not_elem_of_cons in Hacd as [Hac Hacd].
  apply not_elem_of_cons in Hacd as [Had _].
  apply not_elem_of_cons in Hbc as [Hbc Hbd].
  apply not_elem_of_cons in Hbd as [Hbd _].
  apply not_elem_of_cons in Hcd as [Hcd _].
  intuition congruence.
Qed.

(** C5, as written, fails: the single record listed from a one-item
    page has three fields, so it cannot hold a source identifier, a title,
    an uploader and a duration. *)
Lemma listing_lacks_uploader_and_duration : ~ listing_has_four_fields.
Proof.
  intros H.
  specialize (H one_page (Some (lit "key")) (lit "PL1") (of_Z 100) 1%nat
                [mapped (item "hTWKbfoikeg" "Smells Like Teen Spirit" 0)]
                (mapped (item "hTWKbfoikeg" "Smells Like Teen Spirit" 0))
                eq_refl (or_introl eq_refl)).
  refine (three_keys_not_four _ _ H). rewrite mapped_dom. reflexivity.
Qed.

(** C5, amended: every record the listing returns has a [videoId] and a
    [title]; a record fetched with an API key has [position] as its third
    and last field, a record of the sample playlist has no other field;
    no record has an [uploader] or a [duration_seconds] field. *)
Theorem listing_record_shape
    (axios_get : Upstream) (YOUTUBE_API_KEY : option (list N))
    (playlistId : list N) (targetCount : Number) (fuel : nat)
    (result : list Obj) (r : Obj) :
  fetchPlaylistItemsFromYouTube axios_get YOUTUBE_API_KEY playlistId
    targetCount fuel = Some (Returned result) ->
  In r result ->
  is_Some (r !! "videoId")
  /\ is_Some (r !! "title")
  /\ (if truthy_opt YOUTUBE_API_KEY
      then dom r = {["videoId"; "title"; "position"]}
      else dom r = {["videoId"; "title"]})
  /\ r !! "uploader" = None
  /\ r !! "duration_seconds" = None
  /\ ~ has_four_fields r.
Proof.
  intros Hrun Hin.
  pose proof (listing_dom _ _ _ _ _ _ _ Hrun Hin) as Hdom.
  assert (dom r ⊆ {["videoId"; "title"; "position"]}
          /\ "videoId" ∈ dom r /\ "title" ∈ dom r) as (Hsub & Hid & Htitle).
  { destruct (truthy_opt YOUTUBE_API_KEY); rewrite Hdom;
      (split; [apply elem_of_subseteq; intros x|]);
      rewrite !elem_of_union, !elem_of_singleton; tauto. }
  assert (forall key : string,
             key <> "videoId" -> key <> "title" -> key <> "position" ->
             r !! key = None) as Hother.
  { intros key H1 H2 H3. apply not_elem_of_dom. intros Hkey.
    apply Hsub in Hkey.
    rewrite !elem_of_union, !elem_of_singleton in Hkey. tauto. }
  split; [apply elem_of_dom, Hid|].
  split; [apply elem_of_dom, Htitle|].
  split; [exact Hdom|].
  split; [apply Hother; discriminate|].
  split; [apply Hother; discriminate|].
  apply three_keys_not_four, Hsub.
Qed.

Lemma listing_record_shape_witness :
  let r := mapped (item "hTWKbfoikeg" "Smells Like Teen Spirit" 0) in
  is_Some (r !! "videoId") /\ r !! "uploader" = None.
Proof.
  intros r.
  destruct (listing_record_shape one_page (Some (lit "key")) (lit "PL1")
              (of_Z 100) 1%nat [r] r eq_refl (or_introl eq_refl))
    as (Hid & _ & _ & Hup & _).
  split; [exact Hid | exact Hup].
Defined.

End ListingClaims.

(** ** The song route *)

Section SongRoute.
Import Server.

(** C9: for a [videoId] without a row in the songs table the route
    answers with status 200 and the default record
    [{videoId, snippetStart: 0, snippetLength: 30, lyrics: ''}]; the same
    holds for any lookup that returns [undefined], so an unknown id is
    never answered with an error. *)
Theorem unknown_song_gets_default (db : Db.Database) (videoId : list N) :
  Db.songs db !! videoId = None ->
  get_song db videoId
  = {| song_status := 200; song_body := default_song videoId |}
  /\ song_handler (Returned None) videoId = get_song db videoId
  /\ song_body (get_song db videoId) !! "videoId" = Some (VStr videoId)
  /\ song_body (get_song db videoId) !! "snippetStart" = Some (VNum (of_Z 0))
  /\ song_body (get_song db videoId) !! "snippetLength" = Some (VNum (of_Z 30))
  /\ song_body (get_song db videoId) !! "lyrics" = Some (VStr [])
  /\ song_body (get_song db videoId) !! "error" = None.
Proof.
  intros Hnone. unfold get_song, Db.getSong. rewrite Hnone.
  repeat split.
Qed.

Lemma unknown_song_gets_default_witness :
  get_song {| Db.songs := ∅ |} (lit "3JZ_D3ELwOQ")
  = {| song_status := 200; song_body := default_song (lit "3JZ_D3ELwOQ") |}.
Proof.
  apply (unknown_song_gets_default {| Db.songs := ∅ |} (lit "3JZ_D3ELwOQ")).
  apply lookup_empty.
Defined.

End SongRoute.

(** * Facts about the ingestion core *)

Section Eligibility.
Import Pipeline.

Lemma Qlt_bool_compat a b c : (a == b)%Q -> Qlt_bool a c = Qlt_bool b c.
Proof.
  intros H. destruct (Qlt_bool b c) eqn:E.
  - apply Qlt_bool_iff. apply Qlt_bool_iff in E. rewrite H. exact E.
  - apply Qlt_bool_false_iff. apply Qlt_bool_false_iff in E.
    rewrite H. exact E.
Qed.

(** C2: a candidate shorter than 40 seconds is rejected by [checkDuration]
    with [DurationTooShort], and so by the whole filter whatever its vocal
    score and the threshold; a candidate of 40 seconds or more passes
    [checkDuration]; the verdict is a function of the duration alone. *)
Theorem short_candidates_rejected (c : Candidate) :
  ((duration_seconds c < 40)%Q ->
     checkDuration c = reject DurationTooShort
     /\ forall threshold score,
          eligibilityFilter threshold c score = reject DurationTooShort)
  /\ ((40 <= duration_seconds c)%Q -> checkDuration c = pass)
  /\ (forall c', (duration_seconds c == duration_seconds c')%Q ->
                 checkDuration c = checkDuration c').
Proof.
  unfold eligibilityFilter, checkDuration. repeat split.
  - apply Qlt_bool_iff in H. rewrite H. reflexivity.
  - intros threshold score. apply Qlt_bool_iff in H. rewrite H. reflexivity.
  - intros H. apply Qlt_bool_false_iff in H. rewrite H. reflexivity.
  - intros c' H. rewrite (Qlt_bool_compat _ _ _ H). reflexivity.
Qed.

Lemma short_candidates_rejected_witness :
  checkDuration
    {| source_id := "a"; title := "t"; uploader := "u";
       duration_seconds := 35; raw_audio_ref := "r" |}
  = reject DurationTooShort
  /\ checkDuration
       {| source_id := "b"; title := "t"; uploader := "u";
          duration_seconds := 40; raw_audio_ref := "r" |}
     = pass.
Proof.
  split.
  - apply (short_candidates_rejected
             {| source_id := "a"; title := "t"; uploader := "u";
                duration_seconds := 35; raw_audio_ref := "r" |}).
    reflexivity.
  - apply (short_candidates_rejected
             {| source_id := "b"; title := "t"; uploader := "u";
                duration_seconds := 40; raw_audio_ref := "r" |}).
    discriminate.
Defined.

End Eligibility.

Section Rights.
Import Pipeline.

Lemma is_cleared_spec rs sid :
  is_cleared rs sid = true <->
  exists r, rs !! sid = Some r /\ license_state r = cleared.
Proof.
  unfold is_cleared. destruct (rs !! sid) as [r|].
  - rewrite bool_decide_eq_true. split; [eauto|].
    intros (r' & [= <-] & H). exact H.
  - split; [discriminate | intros (r & H & _); discriminate].
Qed.

(** A core action leaves every existing rights record as it is. *)
Lemma core_keeps_records s a sid r :
  core a = true ->
  rights s !! sid = Some r ->
  rights (step s a) !! sid = Some r.
Proof.
  destruct a as [c lic|sid' ok|sid'|sid'| |sid' st uri]; cbn;
    try discriminate; intros _ Hr; try exact Hr.
  - unfold ingest. destruct (rights s !! source_id c) eqn:E; [exact Hr|].
    cbn. rewrite lookup_insert_ne; [exact Hr | congruence].
  - unfold publish. destruct (rights s !! sid'); [|exact Hr].
    destruct (bool_decide _); [|exact Hr].
    destruct (qa s !! sid') as [[]|]; exact Hr.
Qed.

(** A record that appears was created by ingestion, in [pending_clearance]. *)
Lemma new_record_pending s a sid r :
  rights s !! sid = None ->
  rights (step s a) !! sid = Some r ->
  license_state r = pending_clearance
  /\ exists c license, a = Ingest c license /\ source_id c = sid.
Proof.
  intros Hnone.
  destruct a as [c lic|sid' ok|sid'|sid'| |sid' st uri]; cbn.
  - unfold ingest. destruct (rights s !! source_id c) eqn:E; [congruence|].
    cbn. destruct (decide (source_id c = sid)) as [Heq|Hne].
    + rewrite Heq, lookup_insert_eq. intros [= <-]. split; [reflexivity|eauto].
    + rewrite lookup_insert_ne by exact Hne. congruence.
  - congruence.
  - unfold publish. destruct (rights s !! sid'); [|cbn; congruence].
    destruct (bool_decide _); [|cbn; congruence].
    destruct (qa s !! sid') as [[]|]; cbn; congruence.
  - congruence.
  - congruence.
  - rewrite lookup_alter. case_decide; [subst; rewrite Hnone|]; cbn; congruence.
Qed.

Lemma untargeted_step_pending s a sid :
  targets sid a = false ->
  (forall r, rights s !! sid = Some r -> license_state r = pending_clearance) ->
  forall r, rights (step s a) !! sid = Some r ->
            license_state r = pending_clearance.
Proof.
  intros Ht Hs r Hr.
  destruct (rights s !! sid) as [r0|] eqn:E.
  - destruct (core a) eqn:Ec.
    + rewrite (core_keeps_records _ _ _ _ Ec E) in Hr.
      injection Hr as <-. auto.
    + destruct a; try discriminate. cbn in Ht, Hr.
      apply bool_decide_eq_false in Ht.
      unfold setLicenseState in Hr. cbn in Hr.
      rewrite lookup_alter_ne, E in Hr by exact Ht.
      injection Hr as <-. auto.
  - exact (proj1 (new_record_pending _ _ _ _ E Hr)).
Qed.

Lemma untargeted_run_pending trace sid : forall s,
  existsb (targets sid) trace = false ->
  (forall r, rights s !! sid = Some r -> license_state r = pending_clearance) ->
  forall r, rights (fold_left step trace s) !! sid = Some r ->
            license_state r = pending_clearance.
Proof.
  induction trace as [|a trace IH]; intros s Hex Hs; cbn in *.
  - exact Hs.
  - apply orb_false_iff in Hex as [Ha Hex].
    apply IH; [exact Hex|]. apply untargeted_step_pending; assumption.
Qed.

(** C7: a rights record that appears in the store was created by
    ingestion and is in [pending_clearance]; no action of the core changes
    an existing record, so none moves a record to [cleared]; and along any
    execution a record that no manual-clearance action was aimed at is
    still in [pending_clearance]. *)
Theorem core_never_clears :
  (forall s a sid r,
      rights s !! sid = None ->
      rights (step s a) !! sid = Some r ->
      license_state r = pending_clearance
      /\ exists c license, a = Ingest c license /\ source_id c = sid)
  /\ (forall s a sid r,
        core a = true ->
        rights s !! sid = Some r ->
        rights (step s a) !! sid = Some r)
  /\ (forall s a sid r',
        core a = true ->
        rights (step s a) !! sid = Some r' ->
        license_state r' = cleared ->
        exists r, rights s !! sid = Some r /\ license_state r = cleared)
  /\ (forall trace sid r,
        existsb (targets sid) trace = false ->
        rights (run trace) !! sid = Some r ->
        license_state r = pending_clearance).
Proof.
  split; [exact new_record_pending|].
  split; [exact core_keeps_records|].
  split.
  - intros s a sid r' Hc Hr' Hcl.
    destruct (rights s !! sid) as [r|] eqn:E.
    + rewrite (core_keeps_records _ _ _ _ Hc E) in Hr'.
      injection Hr' as <-. eauto.
    + destruct (new_record_pending _ _ _ _ E Hr') as [Hp _]. congruence.
  - intros trace sid r Hex Hr.
    apply (untargeted_run_pending trace sid empty_store Hex); [|exact Hr].
    intros r0. cbn. rewrite lookup_empty. discriminate.
Qed.

Lemma core_never_clears_witness :
  (forall r, rights (run [Ingest song "standard"; QaResult "yt1" true;
                          Publish "yt1"; Reconcile]) !! "yt1" = Some r ->
             license_state r = pending_clearance)
  /\ rights (step (run [Ingest song "standard"]) (Publish "yt1")) !! "yt1"
     = rights (run [Ingest song "standard"]) !! "yt1".
Proof.
  destruct core_never_clears as (_ & Hkeep & _ & Hrun).
  split.
  - intros r. apply Hrun. reflexivity.
  - rewrite (Hkeep (run [Ingest song "standard"]) (Publish "yt1") "yt1"
               {| rights_uploader := "Linkin Park";
                  license_string := "standard";
                  license_state := pending_clearance |});
      [| reflexivity | vm_compute; reflexivity].
    vm_compute. reflexivity.
Defined.

End Rights.

Section Catalog.
Import Pipeline.

Lemma reconcile_gated s : rights_gated (reconcile s).
Proof.
  intros sid [e He]. cbn in He.
  apply map_lookup_filter_Some in He as [_ Hc]. exact Hc.
Qed.

Lemma publish_gate s sid :
  is_cleared (rights s) sid = false -> catalog (publish s sid) = catalog s.
Proof.
  unfold is_cleared, publish. destruct (rights s !! sid) as [r|]; [|reflexivity].
  intros ->. reflexivity.
Qed.

Lemma step_in_at_reconcile s a : step_in at_reconcile s a = step s a.
Proof. destruct a; reflexivity. Qed.

Lemma run_in_at_reconcile trace : run_in at_reconcile trace = run trace.
Proof.
  unfold run_in, run. generalize empty_store.
  induction trace as [|a trace IH]; intros s; cbn [fold_left]; [reflexivity|].
  rewrite step_in_at_reconcile. apply IH.
Qed.

Lemma run_in_snoc m trace a :
  run_in m (trace ++ [a]) = step_in m (run_in m trace) a.
Proof. unfold run_in. rewrite fold_left_app. reflexivity. Qed.

Lemma awaiting_snoc sid trace a :
  awaiting sid (trace ++ [a]) = window sid a (awaiting sid trace).
Proof. unfold awaiting. rewrite fold_left_app. reflexivity. Qed.

(** What the manual action does to the two stores under either reading. *)
Lemma consume_rights m s sid st :
  rights (consume m s sid st) = alter (set_state st) sid (rights s).
Proof.
  unfold consume. destruct m; [|reflexivity].
  destruct (is_cleared _ _); reflexivity.
Qed.

Lemma consume_catalog m s sid st sid' e :
  catalog (consume m s sid st) !! sid' = Some e -> catalog s !! sid' = Some e.
Proof.
  unfold consume. destruct m; [|exact id].
  destruct (is_cleared _ _); [exact id|]. cbn.
  rewrite lookup_delete. case_decide; [discriminate | exact id].
Qed.

Lemma step_bundles m s a :
  bundles_cleared s -> bundles_cleared (step_in m s a).
Proof.
  intros Hs.
  destruct a as [c lic|sid' ok|sid'|sid'| |sid' st uri]; cbn.
  - unfold ingest. destruct (rights s !! source_id c); exact Hs.
  - exact Hs.
  - unfold publish. destruct (rights s !! sid') as [r|]; [|exact Hs].
    destruct (bool_decide (license_state r = cleared)) eqn:Ec; [|exact Hs].
    destruct (qa s !! sid') as [[]|]; try exact Hs.
    apply bool_decide_eq_true in Ec.
    intros sid e. cbn. rewrite lookup_insert.
    destruct (decide (sid' = sid)) as [_|_].
    + intros [= <-]. exact Ec.
    + apply Hs.
  - intros sid e. cbn. rewrite lookup_delete. case_decide; [discriminate|].
    apply Hs.
  - intros sid e. cbn. intros He.
    apply map_lookup_filter_Some in He as [He _]. exact (Hs _ _ He).
  - intros sid e He. apply consume_catalog in He. exact (Hs _ _ He).
Qed.

Lemma run_bundles m trace : bundles_cleared (run_in m trace).
Proof.
  induction trace as [|a trace IH] using rev_ind.
  - intros sid e. cbn. rewrite lookup_empty. discriminate.
  - rewrite run_in_snoc. apply step_bundles, IH.
Qed.

Lemma step_gated s a :
  no_downgrade s a -> rights_gated s -> rights_gated (step s a).
Proof.
  intros Hnd Hs.
  destruct a as [c lic|sid' ok|sid'|sid'| |sid' st uri]; cbn.
  - unfold ingest. destruct (rights s !! source_id c) eqn:E; [exact Hs|].
    intros sid Hin. cbn in *. apply is_cleared_spec.
    destruct (proj1 (is_cleared_spec _ _) (Hs sid Hin)) as (r & Hr & Hc).
    exists r. split; [|exact Hc].
    rewrite lookup_insert_ne; [exact Hr | congruence].
  - exact Hs.
  - unfold publish. destruct (rights s !! sid') as [r|] eqn:Er; [|exact Hs].
    destruct (bool_decide (license_state r = cleared)) eqn:Ec; [|exact Hs].
    destruct (qa s !! sid') as [[]|]; try exact Hs.
    intros sid. cbn. rewrite lookup_insert.
    destruct (decide (sid' = sid)) as [<-|_].
    + intros _. unfold is_cleared. rewrite Er. exact Ec.
    + apply Hs.
  - intros sid. cbn. rewrite lookup_delete. case_decide.
    + intros [e He]. discriminate.
    + apply Hs.
  - apply reconcile_gated.
  - intros sid Hin. cbn in *. apply is_cleared_spec.
    destruct (proj1 (is_cleared_spec _ _) (Hs sid Hin)) as (r & Hr & Hc).
    rewrite lookup_alter. case_decide as Heq.
    + subst sid'. rewrite Hr. cbn.
      destruct (Hnd sid st uri eq_refl) as [-> | Hnone].
      * eexists. split; reflexivity.
      * destruct Hin as [e He]. congruence.
    + exists r. auto.
Qed.

(** Every published source has a rights record: records are never
    deleted and publish writes only over a record it has read. *)
Lemma step_recorded m s a :
  (forall sid, is_Some (catalog s !! sid) -> is_Some (rights s !! sid)) ->
  forall sid, is_Some (catalog (step_in m s a) !! sid) ->
              is_Some (rights (step_in m s a) !! sid).
Proof.
  intros Hs.
  destruct a as [c lic|sid' ok|sid'|sid'| |sid' st uri]; cbn.
  - unfold ingest. destruct (rights s !! source_id c) eqn:E; [exact Hs|].
    intros sid Hin. cbn in *. rewrite lookup_insert.
    destruct (decide (source_id c = sid)); [eauto | apply Hs, Hin].
  - exact Hs.
  - unfold publish. destruct (rights s !! sid') as [r|] eqn:Er; [|exact Hs].
    destruct (bool_decide (license_state r = cleared)); [|exact Hs].
    destruct (qa s !! sid') as [[]|]; try exact Hs.
    intros sid. cbn. rewrite lookup_insert.
    destruct (decide (sid' = sid)) as [<-|_]; [rewrite Er; eauto | apply Hs].
  - intros sid. cbn. rewrite lookup_delete. case_decide.
    + intros [e He]. discriminate.
    + apply Hs.
  - intros sid [e He]. cbn in *.
    apply map_lookup_filter_Some in He as [He _]. apply Hs. eauto.
  - intros sid [e He]. apply consume_catalog in He.
    rewrite consume_rights, lookup_alter.
    destruct (Hs sid (ex_intro _ e He)) as [r Hr].
    case_decide as Heq; [subst sid'|]; rewrite Hr; cbn; eauto.
Qed.

Lemma run_recorded m trace sid :
  is_Some (catalog (run_in m trace) !! sid) ->
  is_Some (rights (run_in m trace) !! sid).
Proof.
  revert sid. induction trace as [|a trace IH] using rev_ind.
  - intros sid [e He]. cbn in He. rewrite lookup_empty in He. discriminate.
  - rewrite run_in_snoc. apply step_recorded, IH.
Qed.

(** One step of the window invariant: an entry whose record is not
    [cleared] exists only under the deferred reading and only inside the
    reconciliation window of its source. *)
Lemma step_window m s a (aw : string -> bool) :
  (forall sid, is_Some (catalog s !! sid) -> is_Some (rights s !! sid)) ->
  (forall sid, is_Some (catalog s !! sid) ->
     is_cleared (rights s) sid = true \/ (m = at_reconcile /\ aw sid = true)) ->
  forall sid, is_Some (catalog (step_in m s a) !! sid) ->
    is_cleared (rights (step_in m s a)) sid = true
    \/ (m = at_reconcile /\ window sid a (aw sid) = true).
Proof.
  intros Hrec Hs.
  destruct a as [c lic|sid' ok|sid'|sid'| |sid' st uri]; cbn.
  - unfold ingest. destruct (rights s !! source_id c) eqn:E; [exact Hs|].
    intros sid Hin. cbn in *.
    destruct (Hs sid Hin) as [Hc|Hw]; [left|right; exact Hw].
    apply is_cleared_spec in Hc as (r & Hr & Hc). apply is_cleared_spec.
    exists r. split; [|exact Hc].
    rewrite lookup_insert_ne; [exact Hr | congruence].
  - exact Hs.
  - unfold publish. destruct (rights s !! sid') as [r|] eqn:Er; [|exact Hs].
    destruct (bool_decide (license_state r = cleared)) eqn:Ec; [|exact Hs].
    destruct (qa s !! sid') as [[]|]; try exact Hs.
    intros sid. cbn. rewrite lookup_insert.
    destruct (decide (sid' = sid)) as [<-|_].
    + intros _. left. unfold is_cleared. rewrite Er. exact Ec.
    + apply Hs.
  - intros sid. cbn. rewrite lookup_delete. case_decide.
    + intros [e He]. discriminate.
    + apply Hs.
  - intros sid Hin. left. exact (reconcile_gated s sid Hin).
  - intros sid [e He].
    destruct (decide (sid' = sid)) as [->|Hne].
    + rewrite bool_decide_eq_true_2 by reflexivity.
      destruct (decide (st = cleared)) as [->|Hst].
      * left. rewrite consume_rights. apply is_cleared_spec.
        apply consume_catalog in He.
        destruct (Hrec sid (ex_intro _ e He)) as [r Hr].
        exists (set_state cleared r). split; [|reflexivity].
        rewrite lookup_alter_eq, Hr. reflexivity.
      * rewrite bool_decide_eq_false_2 by exact Hst. cbn.
        destruct m; [|right; split; reflexivity].
        left. unfold consume in *.
        destruct (is_cleared (rights (setLicenseState s sid st)) sid) eqn:Ec;
          [exact Ec|].
        cbn in He. rewrite lookup_delete_eq in He. discriminate.
    + rewrite bool_decide_eq_false_2 by exact Hne.
      apply consume_catalog in He.
      destruct (Hs sid (ex_intro _ e He)) as [Hc|Hw]; [left|right; exact Hw].
      rewrite consume_rights. unfold is_cleared in *.
      rewrite lookup_alter_ne by exact Hne. exact Hc.
Qed.

Lemma run_window m trace sid :
  is_Some (catalog (run_in m trace) !! sid) ->
  is_cleared (rights (run_in m trace)) sid = true
  \/ (m = at_reconcile /\ awaiting sid trace = true).
Proof.
  revert sid. induction trace as [|a trace IH] using rev_ind.
  - intros sid [e He]. cbn in He. rewrite lookup_empty in He. discriminate.
  - intros sid. rewrite run_in_snoc, awaiting_snoc.
    apply (step_window m (run_in m trace) a (fun sid => awaiting sid trace)).
    + intros sid'. apply run_recorded.
    + exact IH.
Qed.

(** After a manual action that names a state other than [cleared], the
    record of that source is not [cleared]. *)
Lemma consume_not_cleared m s sid st :
  st <> cleared -> is_cleared (rights (consume m s sid st)) sid = false.
Proof.
  intros Hst. rewrite consume_rights. unfold is_cleared.
  rewrite lookup_alter_eq. destruct (rights s !! sid) as [r|]; [|reflexivity].
  cbn. apply bool_decide_eq_false_2. exact Hst.
Qed.

(** C1: the rights gate under both readings of the retraction.  Publish
    writes nothing unless the record is [cleared] at that moment and every
    entry bundles the record read then.  When the downgrade itself retracts,
    no reachable store holds an entry for a source whose current record is
    not [cleared].  When retraction is left to reconciliation, such an entry
    exists only inside the reconciliation window of its source, between the
    downgrade and the next reconciliation pass, and no store reached by a
    reconciliation pass holds one.  Under either reading the entry of a
    downgraded record is gone once the next reconciliation pass has run. *)
Theorem rights_gate_reconciled :
  (forall s sid,
      is_cleared (rights s) sid = false ->
      catalog (publish s sid) = catalog s)
  /\ (forall m trace, bundles_cleared (run_in m trace))
  /\ (forall s a, no_downgrade s a -> rights_gated s -> rights_gated (step s a))
  /\ (forall trace, rights_gated (run_in at_downgrade trace))
  /\ (forall trace sid,
        is_Some (catalog (run trace) !! sid) ->
        is_cleared (rights (run trace)) sid = true
        \/ awaiting sid trace = true)
  /\ (forall m trace, rights_gated (run_in m (trace ++ [Reconcile])))
  /\ (forall trace sid st uri,
        st <> cleared ->
        catalog (run_in at_downgrade (trace ++ [SetLicenseState sid st uri]))
          !! sid = None)
  /\ (forall m trace sid st uri,
        st <> cleared ->
        catalog (run_in m (trace ++ [SetLicenseState sid st uri; Reconcile]))
          !! sid = None).
Proof.
  split; [exact publish_gate|].
  split; [exact run_bundles|].
  split; [exact step_gated|].
  assert (forall trace, rights_gated (run_in at_downgrade trace)) as Heager.
  { intros trace sid Hin.
    destruct (run_window at_downgrade trace sid Hin) as [Hc|[Hm _]];
      [exact Hc | discriminate Hm]. }
  assert (forall s sid, rights_gated s -> is_cleared (rights s) sid = false ->
                        catalog s !! sid = None) as Hnone.
  { intros s sid Hg Hc. destruct (catalog s !! sid) as [e|] eqn:He;
      [|reflexivity].
    rewrite (Hg sid (ex_intro _ e He)) in Hc. discriminate. }
  split; [exact Heager|].
  split.
  { intros trace sid Hin. rewrite <- run_in_at_reconcile in *.
    destruct (run_window at_reconcile trace sid Hin) as [Hc|[_ Hw]]; auto. }
  split.
  { intros m trace. rewrite run_in_snoc. apply reconcile_gated. }
  split.
  - intros trace sid st uri Hst.
    apply Hnone; [apply Heager|].
    rewrite run_in_snoc. apply consume_not_cleared, Hst.
  - intros m trace sid st uri Hst.
    change [SetLicenseState sid st uri; Reconcile]
      with ([SetLicenseState sid st uri] ++ [Reconcile]).
    rewrite app_assoc, run_in_snoc.
    apply Hnone; [apply reconcile_gated|].
    cbn. rewrite run_in_snoc. apply consume_not_cleared, Hst.
Qed.

Lemma rights_gate_reconciled_witness :
  catalog (publish (run [Ingest song "standard"; QaResult "yt1" true]) "yt1")
  = catalog (run [Ingest song "standard"; QaResult "yt1" true])
  /\ is_Some (catalog (run downgrade_trace) !! "yt1")
  /\ is_cleared (rights (run downgrade_trace)) "yt1" = false
  /\ awaiting "yt1" downgrade_trace = true
  /\ catalog (run_in at_downgrade downgrade_trace) !! "yt1" = None
  /\ catalog (run_in at_reconcile (downgrade_trace ++ [Reconcile])) !! "yt1"
     = None.
Proof.
  destruct rights_gate_reconciled
    as (Hgate & _ & _ & _ & Hwin & _ & Hnow & Hlater).
  assert (is_Some (catalog (run downgrade_trace) !! "yt1")) as Hin
    by (vm_compute; eauto).
  split; [apply Hgate; vm_compute; reflexivity|].
  split; [exact Hin|].
  split; [vm_compute; reflexivity|].
  split.
  - destruct (Hwin downgrade_trace "yt1" Hin) as [Hc|Hw]; [|exact Hw].
    vm_compute in Hc. discriminate Hc.
  - split.
    + apply (Hnow [Ingest song "standard"; QaResult "yt1" true;
                   SetLicenseState "yt1" cleared "evidence/1"; Publish "yt1"]
               "yt1" restricted "evidence/2").
      discriminate.
    + apply (Hlater at_reconcile
               [Ingest song "standard"; QaResult "yt1" true;
                SetLicenseState "yt1" cleared "evidence/1"; Publish "yt1"]
               "yt1" restricted "evidence/2").
      discriminate.
Defined.

End Catalog.

(** * Further facts about the server *)

Section Trim.
Import Server Reading.

Lemma trim_start_spaces s : forallb is_space s = true -> trim_start s = [].
Proof.
  induction s as [|c s IH]; cbn; [reflexivity|].
  intros H. apply andb_true_iff in H as [-> H]. auto.
Qed.

Lemma trim_start_split s :
  exists a, s = a ++ trim_start s /\ forallb is_space a = true.
Proof.
  induction s as [|c s (a & Hs & Ha)]; cbn.
  - exists []. auto.
  - destruct (is_space c) eqn:E.
    + exists (c :: a). cbn. rewrite E, Ha. split; [congruence | reflexivity].
    + exists []. auto.
Qed.

Lemma trim_start_head s :
  match trim_start s with [] => True | c :: _ => is_space c = false end.
Proof.
  induction s as [|c s IH]; cbn; [exact I|].
  destruct (is_space c) eqn:E; [exact IH | exact E].
Qed.

Lemma trim_start_fixed s :
  match s with [] => True | c :: _ => is_space c = false end ->
  trim_start s = s.
Proof. destruct s as [|c s]; cbn; [reflexivity | intros ->; reflexivity]. Qed.

Lemma trim_end_split s :
  exists b, s = trim_end s ++ b /\ forallb is_space b = true.
Proof.
  unfold trim_end. destruct (trim_start_split (rev s)) as (a & Hs & Ha).
  exists (rev a). split.
  - rewrite <- rev_app_distr, <- Hs, rev_involutive. reflexivity.
  - rewrite forallb_forall in *. intros x Hx. apply Ha, in_rev, Hx.
Qed.

Lemma trim_split s :
  exists a b, s = a ++ trim s ++ b
              /\ forallb is_space a = true /\ forallb is_space b = true.
Proof.
  unfold trim. destruct (trim_start_split s) as (a & Hs & Ha).
  destruct (trim_end_split (trim_start s)) as (b & Ht & Hb).
  exists a, b. rewrite <- Ht. auto.
Qed.

Lemma trim_tight s : tight (trim s).
Proof.
  unfold tight, trim. split.
  - pose proof (trim_start_head s) as Hh.
    destruct (trim_end_split (trim_start s)) as (b & Ht & _).
    destruct (trim_end (trim_start s)) as [|c t] eqn:E; [exact I|].
    rewrite Ht in Hh. exact Hh.
  - unfold trim_end. rewrite rev_involutive. apply trim_start_head.
Qed.

Lemma trim_of_tight s : tight s -> trim s = s.
Proof.
  intros [Hh Hl]. unfold trim, trim_end.
  rewrite (trim_start_fixed s Hh), (trim_start_fixed (rev s) Hl).
  apply rev_involutive.
Qed.

Lemma trim_idempotent s : trim (trim s) = trim s.
Proof. apply trim_of_tight, trim_tight. Qed.

Lemma includes_elim s pat :
  includes s pat = true -> exists a b, s = a ++ pat ++ b.
Proof.
  induction s as [|c s IH]; rewrite includes_unfold.
  - rewrite orb_false_r. intros H. apply starts_with_spec in H as [rest H].
    exists [], rest. exact H.
  - intros H. apply orb_true_iff in H as [H|H].
    + apply starts_with_spec in H as [rest H]. exists [], rest. exact H.
    + destruct (IH H) as (a & b & ->). exists (c :: a), b. reflexivity.
Qed.

Lemma includes_infix a s b pat :
  includes (a ++ s ++ b) pat = false -> includes s pat = false.
Proof.
  intros H. destruct (includes s pat) eqn:E; [|reflexivity].
  destruct (includes_elim _ _ E) as (x & y & ->).
  rewrite <- H. symmetry.
  replace (a ++ (x ++ pat ++ y) ++ b) with ((a ++ x) ++ pat ++ (y ++ b))
    by (rewrite <- !app_assoc; reflexivity).
  apply includes_intro.
Qed.

Lemma spaces_exclude_list s :
  forallb is_space s = true -> includes s (lit "list=") = false.
Proof.
  intros H. destruct (includes s (lit "list=")) eqn:E; [|reflexivity].
  destruct (includes_elim _ _ E) as (a & b & ->).
  rewrite forallb_app in H. apply andb_true_iff in H as [_ H].
  cbn in H. discriminate H.
Qed.

End Trim.

Section PlaylistRoute.
Import Server Reading.

Lemma extract_without_list raw :
  includes raw (lit "list=") = false ->
  extractPlaylistId (Some raw) = Returned (trim raw).
Proof.
  intros H. unfold extractPlaylistId. destruct raw as [|c raw]; [reflexivity|].
  cbn [truthy negb]. rewrite H. reflexivity.
Qed.

Lemma extract_blank raw :
  forallb is_space raw = true -> extractPlaylistId (Some raw) = Returned [].
Proof.
  intros H. rewrite (extract_without_list _ (spaces_exclude_list _ H)).
  unfold trim. rewrite (trim_start_spaces _ H). reflexivity.
Qed.

(** X1: when neither [playlistId] nor [playlistUrl] holds anything but
    white space (both missing or empty included), the playlist route
    answers 200 with the four sample songs, [requested: 0], [targetCount: 4]
    and [fallback: true], whatever the API key, the upstream and [maxSongs],
    and without a single round of the fetch loop. *)
Theorem blank_playlist_gets_sample
    (axios_get : Upstream) (YOUTUBE_API_KEY : option (list N))
    (query : PlaylistQuery) (fuel : nat) :
  forallb is_space (first_truthy (q_playlistId query) (q_playlistUrl query))
  = true ->
  get_playlist axios_get YOUTUBE_API_KEY query fuel = Some sample_response.
Proof.
  intros H. unfold get_playlist. rewrite (extract_blank _ H). reflexivity.
Qed.

Lemma blank_playlist_gets_sample_witness :
  get_playlist empty_pages (Some (lit "key"))
    {| q_playlistId := Some (lit "  "); q_playlistUrl := None;
       q_maxSongs := of_Z 250 |} 0
  = Some sample_response.
Proof. apply blank_playlist_gets_sample. reflexivity. Defined.

(** X2: without a usable API key (unset or empty) the playlist route never
    waits for the upstream: every query has one response, the same for every
    upstream and every budget, and it is either a 500 (the id could not be
    decoded) or a 200 whose items are the sample playlist. *)
Theorem no_key_never_fetches
    (YOUTUBE_API_KEY : option (list N)) (query : PlaylistQuery) :
  truthy_opt YOUTUBE_API_KEY = false ->
  exists resp,
    (forall axios_get fuel,
        get_playlist axios_get YOUTUBE_API_KEY query fuel = Some resp)
    /\ (resp = failed_playlist
        \/ (status resp = 200
            /\ body_items (body resp) = Some SAMPLE_PLAYLIST)).
Proof.
  intros Hkey. unfold get_playlist.
  destruct (extractPlaylistId _) as [pid|e].
  - destruct (truthy pid); cbn [negb].
    + assert (forall axios_get fuel,
                 fetchPlaylistItemsFromYouTube axios_get YOUTUBE_API_KEY pid
                   (clampSongTarget (q_maxSongs query)) fuel
                 = Some (Returned SAMPLE_PLAYLIST)) as Hf.
      { intros axios_get fuel. unfold fetchPlaylistItemsFromYouTube.
        destruct YOUTUBE_API_KEY as [k|]; [|reflexivity].
        cbn in Hkey. rewrite Hkey. reflexivity. }
      eexists. split.
      * intros axios_get fuel. rewrite Hf. reflexivity.
      * right. split; reflexivity.
    + eexists. split; [reflexivity|]. right. split; reflexivity.
  - exists failed_playlist. split; [reflexivity | left; reflexivity].
Qed.

Lemma no_key_never_fetches_witness :
  exists resp,
    get_playlist empty_pages (Some []) sample_query 0 = Some resp
    /\ body_items (body resp) = Some SAMPLE_PLAYLIST.
Proof.
  destruct (no_key_never_fetches (Some []) sample_query eq_refl)
    as (resp & Hrun & Hshape).
  exists resp. split; [apply Hrun|].
  destruct Hshape as [-> | [_ H]]; [|exact H].
  specialize (Hrun empty_pages 0%nat). vm_compute in Hrun. discriminate Hrun.
Defined.

Lemma clamp_range target :
  exists q, clampSongTarget target = Fin q
            /\ (inject_Z 100 <= q)%Q /\ (q <= inject_Z 800)%Q.
Proof.
  destruct target as [| |q|].
  - exists (inject_Z 100). repeat split; [apply Qle_refl | discriminate].
  - exists (inject_Z 100). repeat split; [apply Qle_refl | discriminate].
  - rewrite clamp_finite.
    destruct (Qlt_bool q (inject_Z 100)) eqn:E1;
      [| destruct (Qlt_bool (inject_Z 800) q) eqn:E2].
    + exists (inject_Z 100). repeat split; [apply Qle_refl | discriminate].
    + exists (inject_Z 800). repeat split; [discriminate | apply Qle_refl].
    + exists q. apply Qlt_bool_false_iff in E1, E2. auto.
  - exists (inject_Z 800). repeat split; [discriminate | apply Qle_refl].
Qed.

Lemma slice0_length {A} (l : list A) q :
  (0 <= q)%Q ->
  (inject_Z (Z.of_nat (length (slice0 l (Fin q)))) <= q)%Q.
Proof.
  intros Hq. unfold slice0, ToIntegerOrInfinity, Qtrunc.
  apply Qle_bool_iff in Hq as Hb. rewrite Hb.
  assert (0 <= Qfloor q)%Z as Hf.
  { change 0%Z with (Qfloor 0). apply Qfloor_resp_le, Hq. }
  destruct (Z.ltb_spec (Qfloor q) 0) as [?|_]; [lia|].
  eapply Qle_trans; [|apply Qfloor_le].
  rewrite <- Zle_Qle, length_firstn. lia.
Qed.

(** X3: a playlist answer that carries fetched items reports their number
    as [count], reports the clamped target as [requested], a number between
    100 and 800, and never holds more items than [requested]; [fallback] is
    true exactly when there is no usable API key. *)
Theorem playlist_count_within_request
    (axios_get : Upstream) (YOUTUBE_API_KEY : option (list N))
    (query : PlaylistQuery) (fuel : nat) (resp : PlaylistResponse)
    (pid : list N) (listed : list Obj) (requested count : Number)
    (fallback : bool) :
  get_playlist axios_get YOUTUBE_API_KEY query fuel = Some resp ->
  body resp = ItemsBody pid listed requested count fallback ->
  status resp = 200
  /\ count = of_nat (length listed)
  /\ requested = clampSongTarget (q_maxSongs query)
  /\ fallback = negb (truthy_opt YOUTUBE_API_KEY)
  /\ exists q, requested = Fin q
               /\ (inject_Z 100 <= q)%Q /\ (q <= inject_Z 800)%Q
               /\ (inject_Z (Z.of_nat (length listed)) <= q)%Q.
Proof.
  unfold get_playlist.
  destruct (extractPlaylistId _) as [p|e]; [|intros [= <-]; discriminate].
  destruct (truthy p); cbn [negb]; [|intros [= <-]; discriminate].
  destruct (fetchPlaylistItemsFromYouTube _ _ _ _ _) as [[l|e]|] eqn:Ef;
    [| intros [= <-]; discriminate | discriminate].
  intros [= <-]. cbn [body status]. intros [= <- <- <- <- <-].
  repeat split.
  destruct (clamp_range (q_maxSongs query)) as (q & Hq & Hlo & Hhi).
  exists q. repeat split; try assumption.
  assert (0 <= q)%Q as Hq0 by (eapply Qle_trans; [|exact Hlo]; discriminate).
  unfold fetchPlaylistItemsFromYouTube in Ef. rewrite Hq in Ef.
  assert (inject_Z (Z.of_nat (length SAMPLE_PLAYLIST)) <= q)%Q as Hs.
  { eapply Qle_trans; [|exact Hlo]. discriminate. }
  destruct YOUTUBE_API_KEY as [k|]; [|injection Ef as <-; exact Hs].
  destruct (truthy k); cbn [negb] in Ef; [|injection Ef as <-; exact Hs].
  destruct (fetch_loop _ _ _ _ _ _ _ _) as [[acc|e]|]; try discriminate.
  injection Ef as <-. apply slice0_length, Hq0.
Qed.

Lemma playlist_count_within_request_witness :
  exists q, clampSongTarget NaN = Fin q
            /\ (inject_Z 1 <= q)%Q.
Proof.
  destruct (playlist_count_within_request one_page (Some (lit "key"))
              sample_query 1 _ (lit "PL1") _ _ _ _ eq_refl eq_refl)
    as (_ & _ & _ & _ & q & Hq & _ & _ & Hlen).
  exists q. split; [exact Hq | exact Hlen].
Defined.

End PlaylistRoute.

Section Escapes.
Import Server Reading.

Lemma Decode_enough budget s :
  (length s <= budget)%nat -> Decode budget s = decodeURIComponent s.
Proof. intros H. apply Decode_budget; [exact H | lia]. Qed.

(** Code units before the first percent sign are copied. *)
Lemma decode_plain_prefix a s :
  plain a = true ->
  decodeURIComponent (a ++ s) =
    match decodeURIComponent s with
    | Returned r => Returned (a ++ r)
    | Threw e => Threw e
    end.
Proof.
  induction a as [|c a IH]; cbn [app plain forallb].
  - intros _. destruct (decodeURIComponent s); reflexivity.
  - intros H. apply andb_true_iff in H as [Hc Ha]. apply negb_true_iff in Hc.
    unfold decodeURIComponent at 1. cbn [length Decode]. rewrite Hc.
    fold (decodeURIComponent (a ++ s)). rewrite (IH Ha).
    destruct (decodeURIComponent s); reflexivity.
Qed.

Lemma decode_bad_escape rest :
  bad_escape rest -> decodeURIComponent (37%N :: rest) = Threw URIError.
Proof.
  unfold decodeURIComponent. cbn [length Decode]. rewrite N.eqb_refl.
  destruct rest as [|h1 [|h2 rest]]; cbn [bad_escape]; try reflexivity.
  intros ->. reflexivity.
Qed.

Lemma hex_digit_not_percent h d :
  hex_digit h = Some d -> (h =? 37)%N = false.
Proof.
  destruct (h =? 37)%N eqn:E; [|reflexivity].
  apply N.eqb_eq in E. subst h. discriminate.
Qed.

(** An escape that is read hides no percent sign. *)
Lemma read_escape_bad h1 h2 b rest :
  ParseHexOctet h1 h2 = Some b ->
  has_bad_escape (37%N :: h1 :: h2 :: rest) = has_bad_escape rest.
Proof.
  intros Hp. cbn [has_bad_escape bad_escapeb]. rewrite Hp.
  unfold ParseHexOctet in Hp.
  destruct (hex_digit h1) as [d1|] eqn:E1; [|discriminate].
  destruct (hex_digit h2) as [d2|] eqn:E2; [|discriminate].
  rewrite (hex_digit_not_percent _ _ E1), (hex_digit_not_percent _ _ E2).
  reflexivity.
Qed.

Lemma continuation_octets_bad n : forall s bs rest,
  continuation_octets n s = Some (bs, rest) ->
  has_bad_escape s = has_bad_escape rest.
Proof.
  induction n as [|n IH]; intros s bs rest; cbn [continuation_octets].
  - intros [= _ <-]. reflexivity.
  - destruct s as [|c [|h1 [|h2 s']]]; try discriminate.
    destruct (c =? 37)%N eqn:Ec; [|discriminate].
    apply N.eqb_eq in Ec. subst c.
    destruct (ParseHexOctet h1 h2) as [b|] eqn:Ep; [|discriminate].
    destruct (continuation_octets n s') as [[bs' rest']|] eqn:E; [|discriminate].
    intros [= _ <-]. rewrite (read_escape_bad _ _ _ _ Ep). exact (IH _ _ _ E).
Qed.

(** [Decode] reads every percent sign it reaches as the start of an
    escape, so a single malformed escape anywhere makes it throw. *)
Lemma Decode_bad budget : forall s,
  (length s <= budget)%nat ->
  has_bad_escape s = true ->
  Decode budget s = Threw URIError.
Proof.
  induction budget as [|budget IH]; intros s Hlen Hbad.
  - destruct s; [discriminate | cbn in Hlen; lia].
  - destruct s as [|c rest]; [discriminate|].
    cbn [length] in Hlen. cbn [Decode].
    destruct (c =? 37)%N eqn:Ec.
    + apply N.eqb_eq in Ec. subst c.
      destruct rest as [|h1 [|h2 rest2]]; try reflexivity.
      destruct (ParseHexOctet h1 h2) as [b|] eqn:Ep; [|reflexivity].
      rewrite (read_escape_bad _ _ _ _ Ep) in Hbad.
      cbn [length] in Hlen.
      destruct (leading_ones b) as [|[|m]]; [| reflexivity |].
      * rewrite (IH rest2); [reflexivity | lia | exact Hbad].
      * destruct (2 <? m)%nat; [reflexivity|].
        destruct (continuation_octets (S m) rest2) as [[bs rest3]|] eqn:Eo;
          [|reflexivity].
        destruct (utf8_code_point (b :: bs)); [|reflexivity].
        pose proof (continuation_octets_length _ _ _ _ Eo) as Hl.
        rewrite (continuation_octets_bad _ _ _ _ Eo) in Hbad.
        rewrite (IH rest3); [reflexivity | lia | exact Hbad].
    + cbn [has_bad_escape] in Hbad. rewrite Ec in Hbad. cbn [andb orb] in Hbad.
      rewrite (IH rest); [reflexivity | lia | exact Hbad].
Qed.

Lemma bad_escape_found a rest :
  bad_escape rest -> has_bad_escape (a ++ 37%N :: rest) = true.
Proof.
  intros Hbad. induction a as [|c a IH]; cbn [app has_bad_escape].
  - rewrite N.eqb_refl. cbn [andb].
    destruct rest as [|h1 [|h2 rest]]; try reflexivity.
    cbn [bad_escape] in Hbad. cbn [bad_escapeb]. rewrite Hbad. reflexivity.
  - rewrite IH. apply orb_true_r.
Qed.

(** X4: when the leftmost [list=] parameter of the requested playlist holds
    a percent sign that is not followed by two hexadecimal digits, be it
    the first percent sign of the parameter or a later one,
    [extractPlaylistId] throws [URIError] and the playlist route answers 500
    with [{error: 'Failed to fetch playlist'}], whatever the API key and
    before any upstream request. *)
Theorem malformed_escape_answers_500
    (axios_get : Upstream) (YOUTUBE_API_KEY : option (list N))
    (query : PlaylistQuery) (fuel : nat) (pre a rest : list N) :
  occurs_at (first_truthy (q_playlistId query) (q_playlistUrl query))
    pre (a ++ 37%N :: rest) ->
  (forall pre' g',
      occurs_at (first_truthy (q_playlistId query) (q_playlistUrl query))
        pre' g' ->
      (length pre <= length pre')%nat) ->
  bad_escape rest ->
  extractPlaylistId
    (Some (first_truthy (q_playlistId query) (q_playlistUrl query)))
  = Threw URIError
  /\ get_playlist axios_get YOUTUBE_API_KEY query fuel = Some failed_playlist.
Proof.
  intros Hocc Hleft Hbad.
  assert (extractPlaylistId
            (Some (first_truthy (q_playlistId query) (q_playlistUrl query)))
          = Threw URIError) as Hx.
  { assert (first_truthy (q_playlistId query) (q_playlistUrl query) <> [])
      as Hne.
    { destruct Hocc as (suf & -> & c & post & -> & _). destruct pre; discriminate. }
    rewrite (extract_nonempty _ Hne), (list_match_leftmost _ _ _ Hocc Hleft).
    unfold decodeURIComponent.
    rewrite (Decode_bad _ _ (Nat.le_refl _) (bad_escape_found a rest Hbad)).
    reflexivity. }
  split; [exact Hx|]. unfold get_playlist. rewrite Hx. reflexivity.
Qed.

Lemma malformed_escape_answers_500_witness :
  get_playlist one_page (Some (lit "key"))
    {| q_playlistId := None;
       q_playlistUrl := Some (lit "https://youtu.be/x?list=%41%zz&t=1");
       q_maxSongs := NaN |} 5
  = Some failed_playlist.
Proof.
  apply (malformed_escape_answers_500 one_page (Some (lit "key"))
           {| q_playlistId := None;
              q_playlistUrl := Some (lit "https://youtu.be/x?list=%41%zz&t=1");
              q_maxSongs := NaN |} 5
           (lit "https://youtu.be/x") (lit "%41") (lit "zz")).
  - exists (lit "?list=%41%zz&t=1"). split; [reflexivity|].
    exists 63%N, (lit "&t=1"). repeat split. discriminate.
  - apply no_match_before_leftmost. vm_compute. reflexivity.
  - reflexivity.
Defined.

(** X5: an input without ['list='] is only trimmed: the result is the input
    without its leading and trailing white space, it neither starts nor ends
    with white space, and extracting again from the result changes nothing. *)
Theorem bare_id_is_trimmed (raw : list N) :
  includes raw (lit "list=") = false ->
  extractPlaylistId (Some raw) = Returned (trim raw)
  /\ (exists a b, raw = a ++ trim raw ++ b
                  /\ forallb is_space a = true /\ forallb is_space b = true)
  /\ tight (trim raw)
  /\ extractPlaylistId (Some (trim raw)) = Returned (trim raw).
Proof.
  intros H. split; [apply extract_without_list, H|].
  split; [apply trim_split|]. split; [apply trim_tight|].
  destruct (trim_split raw) as (a & b & Hs & _).
  rewrite Hs in H. apply includes_infix in H.
  rewrite (extract_without_list _ H). rewrite trim_idempotent. reflexivity.
Qed.

Lemma bare_id_is_trimmed_witness :
  extractPlaylistId (Some (lit "  PL2vNBvHyEXi ")) = Returned (lit "PL2vNBvHyEXi").
Proof.
  apply (bare_id_is_trimmed (lit "  PL2vNBvHyEXi ")). reflexivity.
Defined.

End Escapes.

(** * Facts about the songs table and its routes *)

Section SongStore.
Import Songs.

Variable column : Affinity -> Value -> option Value.

Lemma post_song_cases db id body :
  (exists a b c,
      column INTEGER (or_default (body_field body "snippetStart") (VNum (of_Z 0)))
      = Some a
      /\ column INTEGER
           (or_default (body_field body "snippetLength") (VNum (of_Z 30)))
         = Some b
      /\ column TEXT (or_default (body_field body "lyrics") (VStr [])) = Some c
      /\ post_song column db id body
         = (saved, {| Db.songs := <[id := row id a b c]> (Db.songs db) |}))
  \/ ((column INTEGER
         (or_default (body_field body "snippetStart") (VNum (of_Z 0))) = None
       \/ column INTEGER
            (or_default (body_field body "snippetLength") (VNum (of_Z 30)))
          = None
       \/ column TEXT (or_default (body_field body "lyrics") (VStr [])) = None)
      /\ post_song column db id body = (failed_save, db)).
Proof.
  unfold post_song, upsertSong. cbn [snippetStart snippetLength lyrics videoId].
  destruct (column INTEGER (or_default (body_field body "snippetStart") _))
    as [a|]; [|right; auto].
  destruct (column INTEGER (or_default (body_field body "snippetLength") _))
    as [b|]; [|right; auto].
  destruct (column TEXT (or_default (body_field body "lyrics") _))
    as [c|]; [|right; auto].
  left. exists a, b, c. auto.
Qed.


(** X7: saving under one id changes nothing for any other id: the song
    route serves every other id exactly as before, whether the save
    succeeded or not. *)
Theorem save_leaves_other_songs (db : Db.Database) (id id' : list N)
    (body : Obj) :
  id <> id' ->
  Server.get_song (post_song column db id body).2 id' = Server.get_song db id'.
Proof.
  intros Hne.
  destruct (post_song_cases db id body)
    as [(a & b & c & _ & _ & _ & ->) | (_ & ->)]; [|reflexivity].
  unfold Server.get_song, Db.getSong. cbn.
  rewrite lookup_insert_ne by exact Hne. reflexivity.
Qed.

(** X8: the last accepted save wins: when a save for an id is accepted,
    the table afterwards is the same whether or not an earlier save for the
    same id came before it; in particular sending the same save twice
    leaves the table as after the first. *)
Theorem last_save_wins (db : Db.Database) (id : list N) (first last : Obj) :
  (post_song column db id last).1 = saved ->
  post_song column (post_song column db id first).2 id last
  = post_song column db id last.
Proof.
  intros Hok.
  destruct (post_song_cases db id last)
    as [(a & b & c & Ha & Hb & Hc & Hl) | (_ & Hl)];
    [|rewrite Hl in Hok; discriminate Hok].
  rewrite Hl.
  destruct (post_song_cases (post_song column db id first).2 id last)
    as [(a' & b' & c' & Ha' & Hb' & Hc' & ->) | ([H|[H|H]] & _)];
    try congruence.
  assert (a' = a) as -> by congruence.
  assert (b' = b) as -> by congruence.
  assert (c' = c) as -> by congruence.
  f_equal. f_equal.
  destruct (post_song_cases db id first)
    as [(x & y & z & _ & _ & _ & ->) | (_ & ->)]; cbn.
  - apply insert_insert_eq.
  - reflexivity.
Qed.

Lemma post_song_keyed db id body :
  keyed db -> keyed (post_song column db id body).2.
Proof.
  intros Hk.
  destruct (post_song_cases db id body)
    as [(a & b & c & _ & _ & _ & ->) | (_ & ->)]; [|exact Hk].
  intros id' r. cbn. rewrite lookup_insert.
  destruct (decide (id = id')) as [<-|_]; [|apply Hk].
  intros [= <-]. eauto.
Qed.

Lemma after_saves_keyed requests : forall db,
  keyed db -> keyed (after_saves column requests db).
Proof.
  induction requests as [|[id body] requests IH]; intros db Hk; cbn;
    [exact Hk|].
  apply IH, post_song_keyed, Hk.
Qed.

Lemma after_saves_from requests : forall db id r,
  Db.songs (after_saves column requests db) !! id = Some r ->
  Db.songs db !! id = Some r \/ exists body, In (id, body) requests.
Proof.
  induction requests as [|[id0 body0] requests IH]; intros db id r; cbn;
    [auto|].
  intros H. destruct (IH _ _ _ H) as [H0 | [body Hin]]; [|eauto].
  destruct (post_song_cases db id0 body0)
    as [(a & b & c & _ & _ & _ & Hp) | (_ & Hp)];
    cbn in H0; rewrite Hp in H0; cbn in H0; [|auto].
  rewrite lookup_insert in H0.
  destruct (decide (id0 = id)) as [<-|_]; [right; eauto | auto].
Qed.

Lemma keyed_listing db :
  keyed db ->
  (fun r : Obj => r !! "videoId") <$> listSongs db
  = (fun id => Some (VStr id)) <$> (map_to_list (Db.songs db)).*1.
Proof.
  intros Hk. unfold listSongs.
  assert (Forall (fun kv : list N * Obj => Db.songs db !! kv.1 = Some kv.2)
            (map_to_list (Db.songs db))) as Hall.
  { apply Forall_forall. intros [id r] Hin.
    apply elem_of_map_to_list, Hin. }
  induction Hall as [|[id r] l Hx _ IH]; [reflexivity|].
  cbn in *. rewrite IH. destruct (Hk _ _ Hx) as (a & b & c & ->).
  reflexivity.
Qed.

(** X9: in a table filled by save requests alone, whatever they were, the
    song list shows every saved id once: no two listed rows have the same
    [videoId], the list is as long as the number of stored ids, every listed
    row has the four columns and is what the song route serves for its
    [videoId], and that id was the target of one of the requests. *)
Theorem listing_matches_lookup (requests : list (list N * Obj)) :
  let db := after_saves column requests empty_table in
  (get_songs db).1 = 200
  /\ NoDup ((fun r : Obj => r !! "videoId") <$> (get_songs db).2)
  /\ length (get_songs db).2 = size (Db.songs db)
  /\ forall r,
       r ∈ (get_songs db).2 ->
       exists id a b c body,
         r = row id a b c
         /\ Server.get_song db id
            = {| Server.song_status := 200; Server.song_body := r |}
         /\ In (id, body) requests.
Proof.
  intros db.
  assert (keyed db) as Hk.
  { apply after_saves_keyed. intros id r. cbn. rewrite lookup_empty.
    discriminate. }
  split; [reflexivity|]. cbn [get_songs snd]. split; [|split].
  - rewrite (keyed_listing _ Hk). apply NoDup_fmap_2.
    + intros x y [= ->]. reflexivity.
    + apply NoDup_fst_map_to_list.
  - unfold listSongs. rewrite length_fmap. apply length_map_to_list.
  - intros r Hr. unfold listSongs in Hr.
    apply list_elem_of_fmap in Hr as ([id r'] & -> & Hin).
    apply elem_of_map_to_list in Hin. cbn.
    destruct (Hk _ _ Hin) as (a & b & c & Heq).
    destruct (after_saves_from _ _ _ _ Hin) as [H0 | [body Hb]].
    { cbn in H0. rewrite lookup_empty in H0. discriminate. }
    exists id, a, b, c, body. split; [exact Heq|]. split; [|exact Hb].
    unfold Server.get_song, Db.getSong. fold db. rewrite Hin. reflexivity.
Qed.

(** X10: a save without the three fields stores the defaults of
    [upsertSong], which are the defaults of the song route: when the table
    keeps 0, 30 and the empty text as they are, the save is accepted and the
    song route then answers for that id exactly as it does for an id that
    was never saved. *)
Theorem empty_save_matches_default (db : Db.Database) (id : list N)
    (body : Obj) :
  body !! "snippetStart" = None ->
  body !! "snippetLength" = None ->
  body !! "lyrics" = None ->
  column INTEGER (VNum (of_Z 0)) = Some (VNum (of_Z 0)) ->
  column INTEGER (VNum (of_Z 30)) = Some (VNum (of_Z 30)) ->
  column TEXT (VStr []) = Some (VStr []) ->
  (post_song column db id body).1 = saved
  /\ Server.get_song (post_song column db id body).2 id
     = Server.get_song empty_table id.
Proof.
  intros H1 H2 H3 Ha Hb Hc.
  destruct (post_song_cases db id body)
    as [(a & b & c & Ha' & Hb' & Hc' & ->) | (Hno & _)];
    unfold body_field in *; rewrite ?H1, ?H2, ?H3 in *; cbn in *.
  - split; [reflexivity|].
    unfold Server.get_song, Db.getSong. cbn.
    rewrite lookup_insert_eq, lookup_empty. cbn.
    assert (a = VNum (of_Z 0)) as -> by congruence.
    assert (b = VNum (of_Z 30)) as -> by congruence.
    assert (c = VStr []) as -> by congruence.
    reflexivity.
  - destruct Hno as [H|[H|H]]; congruence.
Qed.

End SongStore.

Section SongStoreWitnesses.
Import Songs.


Lemma save_leaves_other_songs_witness :
  Server.get_song
    (post_song plain_column empty_table (lit "a") ∅).2 (lit "b")
  = Server.get_song empty_table (lit "b").
Proof. apply save_leaves_other_songs. discriminate. Defined.

Lemma last_save_wins_witness :
  post_song plain_column
    (post_song plain_column empty_table (lit "a")
       (<["lyrics" := VStr (lit "la")]> ∅)).2
    (lit "a") (<["lyrics" := VStr (lit "la la")]> ∅)
  = post_song plain_column empty_table (lit "a")
      (<["lyrics" := VStr (lit "la la")]> ∅).
Proof. apply last_save_wins. reflexivity. Defined.

Lemma listing_matches_lookup_witness :
  length (get_songs
            (after_saves plain_column
               [(lit "a", ∅); (lit "b", ∅); (lit "a", ∅)] empty_table)).2
  = 2%nat.
Proof.
  destruct (listing_matches_lookup plain_column
              [(lit "a", ∅); (lit "b", ∅); (lit "a", ∅)])
    as (_ & _ & Hlen & _).
  rewrite Hlen. vm_compute. reflexivity.
Defined.

Lemma empty_save_matches_default_witness :
  Server.get_song (post_song plain_column empty_table (lit "a") ∅).2 (lit "a")
  = Server.get_song empty_table (lit "a").
Proof.
  apply (empty_save_matches_default plain_column empty_table (lit "a") ∅);
    reflexivity.
Defined.

End SongStoreWitnesses.

(** * Facts about the smoke test *)

Section SmokeTest.
Import Smoke.

(** X11: the smoke test finishes without an exit code against this server
    whatever the API key, the upstream, the songs table and the transport of
    the path parameter: its playlist request asks for no playlist, so it is
    answered with the sample and never waits for the upstream, and its song
    request is answered 200 whether or not the first sample song was saved. *)
Theorem smoke_test_passes (path_param : Value -> list N)
    (axios_get : Server.Upstream) (YOUTUBE_API_KEY : option (list N))
    (db : Db.Database) (fuel : nat) :
  smoke path_param axios_get YOUTUBE_API_KEY db fuel = Some Finished.
Proof.
  unfold smoke, Server.get_playlist. cbn.
  unfold Server.get_song, Server.song_handler. reflexivity.
Qed.

End SmokeTest.

(** * Facts about the client's loop *)

Section ClientLoop.
Import Client.

Lemma init_tidy : tidy init.
Proof.
  split; [split; [|split; [|split]]|]; cbn.
  - reflexivity.
  - intros id. split; [|discriminate].
    intros H. apply lookup_singleton_Some in H as [_ H]. discriminate.
  - intros id H. apply lookup_singleton_Some in H as [<- _]. reflexivity.
  - intros id [t H]. apply lookup_singleton_Some in H as [<- _]. reflexivity.
  - discriminate.
Qed.

Lemma stopLoop_wired s :
  wired s -> wired (stopLoop s) /\ loopInterval (stopLoop s) = None.
Proof.
  intros (H1 & H2 & H3 & H4). split; [|reflexivity].
  unfold wired, stopLoop; cbn.
  destruct (loopInterval s) as [id|] eqn:E.
  - assert (timers s !! id = Some LoopTimer) as Hid by (apply H2; reflexivity).
    split; [|split; [|split]].
    + rewrite lookup_delete_ne; [exact H1 | congruence].
    + intros j. split; [|discriminate].
      intros Hj. apply lookup_delete_Some in Hj as [Hne Hj].
      apply H2 in Hj. congruence.
    + intros j Hj. apply lookup_delete_Some in Hj as [_ Hj]. auto.
    + intros j [t Hj]. apply lookup_delete_Some in Hj as [_ Hj]. eauto.
  - split; [exact H1|]. split; [|split; [exact H3 | exact H4]].
    intros j. rewrite H2. split; congruence.
Qed.

Lemma stopLoop_tidy s : wired s -> tidy (stopLoop s).
Proof.
  intros H. destruct (stopLoop_wired s H) as [Hw Hn].
  split; [exact Hw|]. intros id. rewrite Hn. discriminate.
Qed.

Lemma call_same c s s' :
  call c s = Some s' ->
  timers s' = timers s /\ loopInterval s' = loopInterval s
  /\ next_timer s' = next_timer s /\ loopActive s' = loopActive s
  /\ loopMode s' = loopMode s /\ snippetStart s' = snippetStart s
  /\ ytPlayer s' = ytPlayer s.
Proof.
  unfold call. destruct (ytPlayer s) eqn:E; try discriminate.
  intros [= <-]. cbn. auto 10.
Qed.

(** Whether a state is tidy depends on five of its fields only. *)
Lemma tidy_same s s' :
  timers s' = timers s -> loopInterval s' = loopInterval s ->
  next_timer s' = next_timer s -> loopActive s' = loopActive s ->
  loopMode s' = loopMode s ->
  tidy s -> tidy s'.
Proof.
  unfold tidy, wired. intros -> -> -> -> ->. auto.
Qed.

Lemma default_call_tidy c s : tidy s -> tidy (default s (call c s)).
Proof.
  intros H. destruct (call c s) as [s'|] eqn:E; [|exact H].
  destruct (call_same _ _ _ E) as (? & ? & ? & ? & ? & _).
  cbn. eapply tidy_same; eauto.
Qed.

Lemma seek_and_play_tidy t s : tidy s -> tidy (seek_and_play t s).
Proof.
  intros H. unfold seek_and_play.
  destruct (call (SeekTo t) s) as [s'|] eqn:E; [|exact H].
  apply default_call_tidy.
  destruct (call_same _ _ _ E) as (? & ? & ? & ? & ? & _).
  eapply tidy_same; eauto.
Qed.

Lemma set_loop_interval_tidy s :
  wired s -> loopInterval s = None ->
  loopActive s = true -> is_full (loopMode s) = false ->
  tidy (set_loop_interval s).
Proof.
  intros (H1 & H2 & H3 & H4) Hn Ha Hf.
  assert (1 < next_timer s)%positive as Hlt by (apply H4; eauto).
  split; [split; [|split; [|split]]|]; cbn.
  - rewrite lookup_insert_ne; [exact H1 | lia].
  - intros j. rewrite lookup_insert.
    destruct (decide (next_timer s = j)) as [<-|Hne].
    + split; reflexivity.
    + rewrite H2, Hn. split; [discriminate | congruence].
  - intros j. rewrite lookup_insert.
    destruct (decide (next_timer s = j)); [discriminate | apply H3].
  - intros j. rewrite lookup_insert.
    destruct (decide (next_timer s = j)) as [<-|_]; [lia|].
    intros Hj. specialize (H4 _ Hj). lia.
  - intros id _. auto.
Qed.

Lemma startLoop_tidy s : wired s -> tidy (startLoop s).
Proof.
  intros Hw. unfold startLoop.
  destruct (stopLoop_wired s Hw) as [Hs Hn].
  assert (tidy (set_active (stopLoop s))) as Ht.
  { split; [exact Hs|]. intros id. cbn. discriminate. }
  destruct (is_full (loopMode (set_active (stopLoop s)))) eqn:Ef.
  - apply default_call_tidy, Ht.
  - destruct (call _ (set_active (stopLoop s))) as [s'|] eqn:E; [|exact Ht].
    destruct (call_same _ _ _ E) as (Et & Ei & En & Ea & Em & _).
    apply set_loop_interval_tidy.
    + destruct Ht as [Hw' _]. unfold wired in *. rewrite Et, Ei, En. exact Hw'.
    + rewrite Ei. reflexivity.
    + rewrite Ea. reflexivity.
    + rewrite Em. exact Ef.
Qed.

Lemma step_tidy s e : tidy s -> tidy (step s e).
Proof.
  intros Ht. pose proof Ht as [Hw H5].
  destruct e as [| |vid start len|vid start len|start len mode| |start len
                |data|id past_end state]; cbn [step].
  - exact Ht.
  - destruct (ytPlayer s); exact Ht.
  - unfold playSong. apply default_call_tidy.
    eapply tidy_same; [..|apply (stopLoop_tidy s Hw)]; reflexivity.
  - exact Ht.
  - unfold previewSnippet.
    destruct (negb (truthy_opt _)); [exact Ht|].
    apply startLoop_tidy. exact Hw.
  - apply stopLoop_tidy, Hw.
  - exact Ht.
  - unfold onPlayerStateChange.
    destruct (negb (loopActive s) || _); [exact Ht|].
    destruct data; try exact Ht.
    destruct (is_full (loopMode s)); apply seek_and_play_tidy, Ht.
  - destruct (timers s !! id) as [[|]|]; [| |exact Ht].
    + unfold loop_callback. destruct (ytPlayer s); try exact Ht.
      destruct past_end; [apply seek_and_play_tidy, Ht | exact Ht].
    + unfold poll_callback. destruct (ytPlayer s); try exact Ht.
      destruct state; try exact Ht;
        (destruct (negb (loopActive s)); [apply stopLoop_tidy, Hw | exact Ht]).
Qed.

Lemma run_tidy events : tidy (run events).
Proof.
  unfold run. generalize init_tidy. generalize init.
  induction events as [|e events IH]; intros s Hs; cbn; [exact Hs|].
  apply IH, step_tidy, Hs.
Qed.

(** X12: whatever happens in the page, the loop never leaks an interval:
    the page has at most one loop interval, it is the one the script
    remembers in [loopInterval] (so Stop and the next Play or Preview clear
    it), the poller is still there, and a remembered interval means that the
    loop is active and not in full mode. *)
Theorem loop_interval_is_unique (events : list Event) :
  let s := run events in
  (forall id id',
      timers s !! id = Some LoopTimer -> timers s !! id' = Some LoopTimer ->
      id = id')
  /\ (forall id, timers s !! id = Some LoopTimer <-> loopInterval s = Some id)
  /\ (forall id, timers s !! id = Some PollTimer <-> id = 1%positive)
  /\ (forall id, loopInterval s = Some id ->
                 loopActive s = true /\ loopMode s <> lit "full").
Proof.
  intros s. destruct (run_tidy events) as [(H1 & H2 & H3 & _) H5].
  fold s in H1, H2, H3, H5. split; [|split; [|split]].
  - intros id id' Hi Hi'. apply H2 in Hi, Hi'. congruence.
  - exact H2.
  - intros id. split; [apply H3 | intros ->; exact H1].
  - intros id Hid. destruct (H5 id Hid) as [Ha Hf]. split; [exact Ha|].
    unfold is_full in Hf. apply bool_decide_eq_false in Hf. exact Hf.
Qed.

Lemma loop_interval_is_unique_witness :
  loopActive
    (run [ApiReady; PlayerReady; ClickPlay (lit "a") (of_Z 5) (of_Z 10);
          ClickPreview (of_Z 5) (of_Z 10) (lit "snippet");
          ClickEdit (lit "b") (of_Z 0) (of_Z 30)])
  = true.
Proof.
  destruct (loop_interval_is_unique
              [ApiReady; PlayerReady; ClickPlay (lit "a") (of_Z 5) (of_Z 10);
               ClickPreview (of_Z 5) (of_Z 10) (lit "snippet");
               ClickEdit (lit "b") (of_Z 0) (of_Z 30)])
    as (_ & _ & _ & H).
  apply (H 2%positive). vm_compute. reflexivity.
Defined.

Lemma stopLoop_idle s :
  loopInterval s = None -> loopActive s = false -> stopLoop s = s.
Proof. destruct s. cbn. intros -> ->. reflexivity. Qed.

Lemma automatic_step_idle s e :
  tidy s -> loopActive s = false -> automatic e = true -> step s e = s.
Proof.
  intros [(H1 & H2 & H3 & H4) H5] Hoff He.
  assert (loopInterval s = None) as Hn.
  { destruct (loopInterval s) as [id|] eqn:E; [|reflexivity].
    destruct (H5 id eq_refl). congruence. }
  destruct e; try discriminate; cbn [step].
  - unfold onPlayerStateChange. rewrite Hoff. reflexivity.
  - destruct (timers s !! id) as [[|]|] eqn:E; [| |reflexivity].
    + apply H2 in E. congruence.
    + unfold poll_callback. rewrite Hoff. cbn [negb].
      destruct (ytPlayer s); try reflexivity.
      destruct state; try reflexivity; apply stopLoop_idle; assumption.
Qed.

(** X13: once the loop is off (after Stop, after Play, or before the first
    Preview), nothing the player or the intervals do changes the page or
    reaches the player: whatever state changes and interval ticks follow,
    the globals, the intervals and the calls made on the player stay as
    they are until the next click. *)
Theorem stopped_loop_stays_silent (events automatic_events : list Event) :
  loopActive (run events) = false ->
  forallb automatic automatic_events = true ->
  run (events ++ automatic_events) = run events.
Proof.
  intros Hoff Hauto. unfold run. rewrite fold_left_app.
  fold (run events). pose proof (run_tidy events) as Ht.
  revert Hoff Ht. generalize (run events).
  induction automatic_events as [|e l IH]; intros s Hoff Ht; cbn;
    [reflexivity|].
  cbn in Hauto. apply andb_true_iff in Hauto as [He Hl].
  rewrite (automatic_step_idle s e Ht Hoff He). apply IH; assumption.
Qed.

Lemma stopped_loop_stays_silent_witness :
  run ([ApiReady; PlayerReady; ClickPlay (lit "a") (of_Z 5) (of_Z 10);
        ClickPreview (of_Z 5) (of_Z 10) (lit "snippet"); ClickStop]
       ++ [StateChange ENDED; Tick 2 true PLAYING; Tick 1 false PAUSED])
  = run [ApiReady; PlayerReady; ClickPlay (lit "a") (of_Z 5) (of_Z 10);
         ClickPreview (of_Z 5) (of_Z 10) (lit "snippet"); ClickStop].
Proof. apply stopped_loop_stays_silent; reflexivity. Defined.

(** X14: the 500 ms poller never does anything in this version of the
    script: in every state the page can reach, and whatever the player
    reports (a pause or the end of the video included), its callback leaves
    the globals, the intervals and the player untouched; in particular it
    never stops a running loop. *)
Theorem poller_is_inert (events : list Event) (past_end : bool)
    (state : PlayerState) :
  step (run events) (Tick 1 past_end state) = run events.
Proof.
  pose proof (run_tidy events) as Ht. revert Ht. generalize (run events).
  intros s [(H1 & H2 & H3 & H4) H5]. cbn [step]. rewrite H1.
  unfold poll_callback. destruct (ytPlayer s); try reflexivity.
  destruct (loopActive s) eqn:Ea; cbn [negb];
    [destruct state; reflexivity|].
  assert (loopInterval s = None) as Hn.
  { destruct (loopInterval s) as [id|] eqn:E; [|reflexivity].
    destruct (H5 id eq_refl). congruence. }
  destruct state; try reflexivity; apply stopLoop_idle; assumption.
Qed.

End ClientLoop.

(** * Facts about percent-encoding *)

Section UriFacts.
Import Server Reading Uri.

Ltac nlia := zify; Z.to_euclidean_division_equations; lia.

Ltac split_ifs :=
  repeat match goal with
    | |- context [if (?a <? ?b)%N then _ else _] =>
        destruct (N.ltb_spec a b); try nlia
    | |- context [if (?a <=? ?b)%N then _ else _] =>
        destruct (N.leb_spec a b); try nlia
    end.

Lemma hex_digit_char d : (d < 16)%N -> hex_digit (hex_char d) = Some d.
Proof.
  intros H. unfold hex_char, hex_digit.
  destruct (N.ltb_spec d 10).
  - replace ((48 <=? 48 + d) && (48 + d <=? 57))%N with true.
    + f_equal. lia.
    + symmetry. apply andb_true_iff. split; apply N.leb_le; lia.
  - replace ((48 <=? 55 + d) && (55 + d <=? 57))%N with false.
    + replace ((65 <=? 55 + d) && (55 + d <=? 70))%N with true.
      * f_equal. lia.
      * symmetry. apply andb_true_iff. split; apply N.leb_le; lia.
    + symmetry. apply andb_false_iff. right. apply N.leb_gt. lia.
Qed.

Lemma parse_escape b :
  (b < 256)%N ->
  ParseHexOctet (hex_char (b / 16)) (hex_char (b mod 16)) = Some b.
Proof.
  intros H. unfold ParseHexOctet.
  rewrite !hex_digit_char by nlia. f_equal. nlia.
Qed.

Lemma Decode_step budget c rest :
  Decode (S budget) (c :: rest) =
    if (c =? 37)%N then
      match rest with
      | h1 :: h2 :: rest2 =>
          match ParseHexOctet h1 h2 with
          | None => Threw URIError
          | Some b =>
              match leading_ones b with
              | O =>
                  match Decode budget rest2 with
                  | Returned r => Returned (b :: r)
                  | Threw e => Threw e
                  end
              | S O => Threw URIError
              | S (S m) =>
                  if (2 <? m)%nat then Threw URIError
                  else
                    match continuation_octets (S m) rest2 with
                    | None => Threw URIError
                    | Some (bs, rest3) =>
                        match utf8_code_point (b :: bs) with
                        | None => Threw URIError
                        | Some v =>
                            match Decode budget rest3 with
                            | Returned r =>
                                Returned (UTF16EncodeCodePoint v ++ r)
                            | Threw e => Threw e
                            end
                        end
                    end
              end
          end
      | _ => Threw URIError
      end
    else
      match Decode budget rest with
      | Returned r => Returned (c :: r)
      | Threw e => Threw e
      end.
Proof. reflexivity. Qed.

(** One round of [Decode] on an escape, with the budgets gone. *)
Lemma decode_escape h1 h2 rest :
  decodeURIComponent (37%N :: h1 :: h2 :: rest) =
    match ParseHexOctet h1 h2 with
    | None => Threw URIError
    | Some b =>
        match leading_ones b with
        | O =>
            match decodeURIComponent rest with
            | Returned r => Returned (b :: r)
            | Threw e => Threw e
            end
        | S O => Threw URIError
        | S (S m) =>
            if (2 <? m)%nat then Threw URIError
            else
              match continuation_octets (S m) rest with
              | None => Threw URIError
              | Some (bs, rest3) =>
                  match utf8_code_point (b :: bs) with
                  | None => Threw URIError
                  | Some v =>
                      match decodeURIComponent rest3 with
                      | Returned r => Returned (UTF16EncodeCodePoint v ++ r)
                      | Threw e => Threw e
                      end
                  end
              end
        end
    end.
Proof.
  unfold decodeURIComponent at 1. cbn [length].
  rewrite Decode_step, N.eqb_refl.
  destruct (ParseHexOctet h1 h2) as [b|]; [|reflexivity].
  destruct (leading_ones b) as [|[|m]]; [| reflexivity |].
  - rewrite Decode_enough by lia. reflexivity.
  - destruct (2 <? m)%nat; [reflexivity|].
    destruct (continuation_octets (S m) rest) as [[bs rest3]|] eqn:E;
      [|reflexivity].
    apply continuation_octets_length in E.
    destruct (utf8_code_point (b :: bs)); [|reflexivity].
    rewrite Decode_enough by lia. reflexivity.
Qed.

Lemma continuation_escape n b rest :
  (b < 256)%N ->
  continuation_octets (S n) (escape b ++ rest) =
    match continuation_octets n rest with
    | Some (bs, r) => Some (b :: bs, r)
    | None => None
    end.
Proof.
  intros H. unfold escape. cbn [app continuation_octets].
  rewrite N.eqb_refl, parse_escape by exact H. reflexivity.
Qed.

Lemma leading_ones_0 b : (b < 128)%N -> leading_ones b = 0%nat.
Proof. intros H. unfold leading_ones. split_ifs; reflexivity. Qed.

Lemma leading_ones_2 b : (192 <= b < 224)%N -> leading_ones b = 2%nat.
Proof. intros H. unfold leading_ones. split_ifs; reflexivity. Qed.

Lemma leading_ones_3 b : (224 <= b < 240)%N -> leading_ones b = 3%nat.
Proof. intros H. unfold leading_ones. split_ifs; reflexivity. Qed.

Lemma leading_ones_4 b : (240 <= b < 248)%N -> leading_ones b = 4%nat.
Proof. intros H. unfold leading_ones. split_ifs; reflexivity. Qed.

Lemma is_continuation_tail x : is_continuation (128 + x mod 64) = true.
Proof.
  unfold is_continuation. apply andb_true_iff.
  split; apply N.leb_le; nlia.
Qed.

Lemma code_point_2 v :
  (128 <= v < 2048)%N ->
  utf8_code_point [192 + v / 64; 128 + v mod 64]%N = Some v.
Proof.
  intros H. unfold utf8_code_point. cbv zeta.
  replace ((192 + v / 64 - 192) * 64 + (128 + v mod 64 - 128))%N with v
    by nlia.
  rewrite is_continuation_tail. cbn [andb].
  destruct (N.leb_spec 128 v); [reflexivity | lia].
Qed.

Lemma code_point_3 v :
  (2048 <= v < 65536)%N -> is_high v = false -> is_low v = false ->
  utf8_code_point [224 + v / 4096; 128 + (v / 64) mod 64; 128 + v mod 64]%N
  = Some v.
Proof.
  intros H Hh Hl. unfold utf8_code_point. cbv zeta.
  replace ((224 + v / 4096 - 224) * 4096 + (128 + (v / 64) mod 64 - 128) * 64
           + (128 + v mod 64 - 128))%N with v by nlia.
  rewrite !is_continuation_tail. cbn [andb].
  destruct (N.leb_spec 2048 v); [|lia]. cbn [andb].
  unfold is_high, is_low in Hh, Hl.
  destruct (N.leb_spec 55296 v); destruct (N.leb_spec v 57343);
    cbn [andb negb]; try reflexivity.
  exfalso.
  destruct (N.leb_spec v 56319); cbn in Hh; [discriminate|].
  destruct (N.leb_spec 56320 v); cbn in Hl; [discriminate | lia].
Qed.

Lemma code_point_4 v :
  (65536 <= v <= 1114111)%N ->
  utf8_code_point
    [240 + v / 262144; 128 + (v / 4096) mod 64; 128 + (v / 64) mod 64;
     128 + v mod 64]%N
  = Some v.
Proof.
  intros H. unfold utf8_code_point. cbv zeta.
  replace ((240 + v / 262144 - 240) * 262144
           + (128 + (v / 4096) mod 64 - 128) * 4096
           + (128 + (v / 64) mod 64 - 128) * 64
           + (128 + v mod 64 - 128))%N with v by nlia.
  rewrite !is_continuation_tail. cbn [andb].
  destruct (N.leb_spec 65536 v); [|lia].
  destruct (N.leb_spec v 1114111); [reflexivity | lia].
Qed.

Lemma lift_decode (units : list N) (x y : Thrown Error (list N)) :
  x = y ->
  match x with Returned r => Returned (units ++ r) | Threw e => Threw e end
  = match y with Returned r => Returned (units ++ r) | Threw e => Threw e end.
Proof. intros ->. reflexivity. Qed.

(** Decoding the escapes of a code point below 65536 that is not a
    surrogate gives that code unit back. *)
Lemma decode_escapes_unit v rest :
  (v < 65536)%N -> is_high v = false -> is_low v = false ->
  decodeURIComponent (escapes v ++ rest) =
    match decodeURIComponent rest with
    | Returned r => Returned (v :: r)
    | Threw e => Threw e
    end.
Proof.
  intros Hv Hh Hl. unfold escapes, utf8_octets.
  destruct (N.ltb_spec v 128); [|destruct (N.ltb_spec v 2048);
                                 [|destruct (N.ltb_spec v 65536); [|lia]]];
    cbn [flat_map app]; rewrite ?app_nil_r; unfold escape at 1;
    cbn [app]; rewrite decode_escape.
  - rewrite parse_escape by lia. rewrite leading_ones_0 by lia. reflexivity.
  - rewrite parse_escape by nlia. rewrite leading_ones_2 by nlia.
    cbn [Nat.ltb Nat.leb].
    rewrite continuation_escape by nlia. cbn [continuation_octets].
    rewrite code_point_2 by lia.
    unfold UTF16EncodeCodePoint. destruct (N.leb_spec v 65535); [|lia].
    reflexivity.
  - rewrite parse_escape by nlia. rewrite leading_ones_3 by nlia.
    cbn [Nat.ltb Nat.leb].
    rewrite <- app_assoc, continuation_escape by nlia.
    rewrite continuation_escape by nlia. cbn [continuation_octets].
    rewrite code_point_3 by (assumption || lia).
    unfold UTF16EncodeCodePoint. destruct (N.leb_spec v 65535); [|lia].
    reflexivity.
Qed.

(** Decoding the escapes of the code point of a surrogate pair gives the
    pair back. *)
Lemma decode_escapes_pair hi lo rest :
  is_high hi = true -> is_low lo = true ->
  decodeURIComponent (escapes (pair_code_point hi lo) ++ rest) =
    match decodeURIComponent rest with
    | Returned r => Returned (hi :: lo :: r)
    | Threw e => Threw e
    end.
Proof.
  intros Hh Hl. unfold is_high, is_low in Hh, Hl.
  apply andb_true_iff in Hh as [Hh1 Hh2]. apply andb_true_iff in Hl as [Hl1 Hl2].
  apply N.leb_le in Hh1, Hh2, Hl1, Hl2.
  assert (65536 <= pair_code_point hi lo <= 1114111)%N as Hv
    by (unfold pair_code_point; lia).
  assert (UTF16EncodeCodePoint (pair_code_point hi lo) = [hi; lo]) as Hu.
  { unfold UTF16EncodeCodePoint.
    destruct (N.leb_spec (pair_code_point hi lo) 65535); [lia|].
    unfold pair_code_point. f_equal; [|f_equal]; nlia. }
  revert Hv Hu. generalize (pair_code_point hi lo). intros v Hv Hu.
  unfold escapes, utf8_octets.
  destruct (N.ltb_spec v 128); [lia|]. destruct (N.ltb_spec v 2048); [lia|].
  destruct (N.ltb_spec v 65536); [lia|].
  cbn [flat_map app]. rewrite ?app_nil_r. unfold escape at 1. cbn [app].
  rewrite decode_escape.
  rewrite parse_escape by nlia. rewrite leading_ones_4 by nlia.
  cbn [Nat.ltb Nat.leb].
  rewrite <- !app_assoc, continuation_escape by nlia.
  rewrite continuation_escape by nlia. rewrite continuation_escape by nlia.
  cbn [continuation_octets]. rewrite code_point_4 by lia. rewrite Hu.
  reflexivity.
Qed.

Lemma unescaped_not_percent c : unescaped c = true -> (c =? 37)%N = false.
Proof.
  intros H. destruct (N.eqb_spec c 37) as [->|]; [|reflexivity].
  discriminate H.
Qed.

Lemma unescaped_not_surrogate c :
  unescaped c = true -> is_high c = false /\ is_low c = false.
Proof.
  intros H. unfold is_high, is_low.
  destruct (N.leb_spec 55296 c) as [Hc|]; [|split; [reflexivity|]].
  - exfalso. unfold unescaped in H.
    repeat (apply orb_true_iff in H as [H|H]);
      try (apply andb_true_iff in H as [H1 H2]; apply N.leb_le in H1, H2; lia);
      apply N.eqb_eq in H; lia.
  - destruct (N.leb_spec 56320 c); [lia | reflexivity].
Qed.

Lemma decode_unit c rest :
  (c =? 37)%N = false ->
  decodeURIComponent (c :: rest) =
    match decodeURIComponent rest with
    | Returned r => Returned (c :: r)
    | Threw e => Threw e
    end.
Proof.
  intros H. unfold decodeURIComponent at 1. cbn [length].
  rewrite Decode_step, H. reflexivity.
Qed.

(** What [encodeURIComponent] produced decodes to what it was given. *)
Lemma decode_encode n : forall s e,
  (length s <= n)%nat ->
  code_units s ->
  encodeURIComponent s = Returned e ->
  decodeURIComponent e = Returned s.
Proof.
  induction n as [|n IH]; intros s e Hlen Hs.
  - destruct s; [|cbn in Hlen; lia]. intros [= <-]. reflexivity.
  - destruct s as [|c s']; [intros [= <-]; reflexivity|].
    cbn [length] in Hlen. apply Forall_cons in Hs as [Hc Hs'].
    cbn [encodeURIComponent].
    destruct (unescaped c) eqn:Eu.
    + destruct (encodeURIComponent s') as [r|] eqn:Er; [|discriminate].
      intros [= <-]. rewrite decode_unit by (apply unescaped_not_percent, Eu).
      rewrite (IH s' r) by (assumption || lia || reflexivity). reflexivity.
    + destruct (is_high c) eqn:Eh.
      * destruct s' as [|d s'']; [discriminate|].
        destruct (is_low d) eqn:El; [|discriminate].
        destruct (encodeURIComponent s'') as [r|] eqn:Er; [|discriminate].
        intros [= <-]. rewrite decode_escapes_pair by assumption.
        apply Forall_cons in Hs' as [_ Hs''].
        cbn [length] in Hlen.
        rewrite (IH s'' r) by (assumption || lia || reflexivity).
        reflexivity.
      * destruct (is_low c) eqn:El; [discriminate|].
        destruct (encodeURIComponent s') as [r|] eqn:Er; [|discriminate].
        intros [= <-]. rewrite decode_escapes_unit by assumption.
        rewrite (IH s' r) by (assumption || lia || reflexivity). reflexivity.
Qed.

(** X15: for every string of 16-bit code units that [encodeURIComponent]
    accepts, [decodeURIComponent] of the result is the string again. *)
Theorem decode_inverts_encode (s e : list N) :
  code_units s ->
  encodeURIComponent s = Returned e ->
  decodeURIComponent e = Returned s.
Proof. intros Hs He. exact (decode_encode (length s) s e (le_n _) Hs He). Qed.

Lemma decode_inverts_encode_witness :
  decodeURIComponent (lit "PL%20a%26b%E2%82%AC%F0%9F%98%80")
  = Returned (lit "PL a&b" ++ [8364; 55357; 56832]%N).
Proof.
  apply (decode_inverts_encode (lit "PL a&b" ++ [8364; 55357; 56832]%N)).
  - repeat constructor.
  - vm_compute. reflexivity.
Defined.

Lemma encode_well_formed n : forall s,
  (length s <= n)%nat ->
  match encodeURIComponent s with
  | Returned _ => well_formed_utf16 s = true
  | Threw e => e = URIError /\ well_formed_utf16 s = false
  end.
Proof.
  induction n as [|n IH]; intros s Hlen.
  - destruct s; [reflexivity | cbn in Hlen; lia].
  - destruct s as [|c s']; [reflexivity|].
    cbn [length] in Hlen. cbn [encodeURIComponent well_formed_utf16].
    fold (is_high c). fold (is_low c).
    destruct (unescaped c) eqn:Eu.
    + destruct (unescaped_not_surrogate _ Eu) as [-> ->].
      specialize (IH s' ltac:(lia)).
      destruct (encodeURIComponent s'); exact IH.
    + destruct (is_high c).
      * destruct s' as [|d s'']; [auto|]. fold (is_low d).
        destruct (is_low d); [|auto]. cbn [andb length] in *.
        specialize (IH s'' ltac:(lia)).
        destruct (encodeURIComponent s''); exact IH.
      * destruct (is_low c); [auto|].
        specialize (IH s' ltac:(lia)).
        destruct (encodeURIComponent s'); exact IH.
Qed.

(** X16: [encodeURIComponent] throws exactly on a string with a lone
    surrogate, and what it throws is [URIError]; when the playlist id is
    such a string, the fetch with an API key and a positive target rejects
    with [URIError] in its first round, whatever the upstream would have
    answered. *)
Theorem lone_surrogate_rejects_fetch (axios_get : Upstream)
    (apiKey playlistId : list N) (targetCount : Number) (fuel : nat) :
  (well_formed_utf16 playlistId = false
   <-> encodeURIComponent playlistId = Threw URIError)
  /\ (well_formed_utf16 playlistId = true
      <-> exists e, encodeURIComponent playlistId = Returned e)
  /\ (truthy apiKey = true ->
      lt (of_Z 0) targetCount = true ->
      encodeURIComponent playlistId = Threw URIError ->
      fetchPlaylistItemsFromYouTube axios_get (Some apiKey) playlistId
        targetCount (S fuel) = Some (Threw URIError)).
Proof.
  pose proof (encode_well_formed (length playlistId) playlistId (le_n _)) as H.
  assert (well_formed_utf16 playlistId = false
          <-> encodeURIComponent playlistId = Threw URIError) as H1.
  { destruct (encodeURIComponent playlistId) as [e|e].
    - rewrite H. split; discriminate.
    - destruct H as [-> ->]. split; reflexivity. }
  split; [exact H1|]. split.
  - destruct (encodeURIComponent playlistId) as [e|e].
    + split; [eauto | intros _; exact H].
    + destruct H as [_ ->]. split; [discriminate | intros [e' He']; discriminate].
  - intros Hkey Hpos Henc. apply H1 in Henc.
    unfold fetchPlaylistItemsFromYouTube. rewrite Hkey. cbn [negb].
    rewrite fetch_loop_unfold.
    change (of_nat (length (@nil Obj))) with (of_Z 0).
    rewrite Hpos. cbn [negb]. unfold playlistItems_url. rewrite Henc.
    reflexivity.
Qed.

Lemma lone_surrogate_rejects_fetch_witness :
  fetchPlaylistItemsFromYouTube one_page (Some (lit "key"))
    (lit "PL" ++ [55357%N]) (of_Z 100) 1
  = Some (Threw URIError).
Proof.
  destruct (lone_surrogate_rejects_fetch one_page (lit "key")
              (lit "PL" ++ [55357%N]) (of_Z 100) 0) as (_ & _ & H).
  apply H; reflexivity.
Defined.

Lemma hex_char_id d : is_id_char (hex_char d) = true.
Proof.
  unfold is_id_char, hex_char. apply negb_true_iff, orb_false_iff.
  destruct (N.ltb_spec d 10); split; apply N.eqb_neq; lia.
Qed.

Lemma escapes_id v : forallb is_id_char (escapes v) = true.
Proof.
  unfold escapes. induction (utf8_octets v) as [|b l IH]; [reflexivity|].
  cbn [flat_map escape app forallb]. rewrite !hex_char_id, IH. reflexivity.
Qed.

Lemma escapes_nonempty v : escapes v <> [].
Proof.
  unfold escapes, utf8_octets.
  destruct (v <? 128)%N; [discriminate|].
  destruct (v <? 2048)%N; [discriminate|].
  destruct (v <? 65536)%N; discriminate.
Qed.

Lemma unescaped_id c : unescaped c = true -> is_id_char c = true.
Proof.
  intros H. unfold is_id_char. apply negb_true_iff, orb_false_iff.
  split; apply N.eqb_neq; intros ->; discriminate H.
Qed.

Lemma encode_alphabet n : forall s e,
  (length s <= n)%nat ->
  encodeURIComponent s = Returned e ->
  forallb is_id_char e = true /\ (s <> [] -> e <> []).
Proof.
  induction n as [|n IH]; intros s e Hlen.
  - destruct s; [|cbn in Hlen; lia]. intros [= <-]. split; [reflexivity | auto].
  - destruct s as [|c s']; [intros [= <-]; split; [reflexivity | auto]|].
    cbn [length] in Hlen. cbn [encodeURIComponent].
    destruct (unescaped c) eqn:Eu.
    + destruct (encodeURIComponent s') as [r|] eqn:Er; [|discriminate].
      intros [= <-]. destruct (IH s' r ltac:(lia) Er) as [Hr _].
      cbn [forallb]. rewrite (unescaped_id _ Eu), Hr.
      split; [reflexivity | discriminate].
    + destruct (is_high c).
      * destruct s' as [|d s'']; [discriminate|].
        destruct (is_low d); [|discriminate].
        destruct (encodeURIComponent s'') as [r|] eqn:Er; [|discriminate].
        cbn [length] in Hlen.
        intros [= <-]. destruct (IH s'' r ltac:(lia) Er) as [Hr _].
        rewrite forallb_app, escapes_id, Hr. split; [reflexivity|].
        intros _ H. apply app_eq_nil in H as [H _].
        exact (escapes_nonempty _ H).
      * destruct (is_low c); [discriminate|].
        destruct (encodeURIComponent s') as [r|] eqn:Er; [|discriminate].
        intros [= <-]. destruct (IH s' r ltac:(lia) Er) as [Hr _].
        rewrite forallb_app, escapes_id, Hr. split; [reflexivity|].
        intros _ H. apply app_eq_nil in H as [H _].
        exact (escapes_nonempty _ H).
Qed.

Lemma unmarked_prefix_leftmost pre : forall suffix pre' c rest,
  forallb (fun x => negb (is_query_mark x)) pre = true ->
  pre ++ suffix = pre' ++ c :: rest ->
  is_query_mark c = true ->
  (length pre <= length pre')%nat.
Proof.
  induction pre as [|x pre IH]; intros suffix pre' c rest Hpre Heq Hc;
    cbn [length]; [lia|].
  cbn in Hpre. apply andb_true_iff in Hpre as [Hx Hpre].
  destruct pre' as [|y pre'].
  - cbn in Heq. injection Heq as -> _. rewrite Hc in Hx. discriminate.
  - cbn in Heq. injection Heq as _ Heq. cbn [length].
    apply le_n_S, (IH _ _ _ _ Hpre Heq Hc).
Qed.

(** X17: a playlist address whose [list] parameter is
    [encodeURIComponent(id)] gives the id back: when nothing before the
    parameter is a ['?'] or ['&'], the id is not empty, and the parameter
    runs to the end or to a ['&'] or ['#'], [extractPlaylistId] returns
    exactly [id], whatever characters the id holds. *)
Theorem encoded_list_parameter_round_trip
    (id e pre post : list N) (mark : N) :
  code_units id ->
  id <> [] ->
  encodeURIComponent id = Returned e ->
  forallb (fun x => negb (is_query_mark x)) pre = true ->
  is_query_mark mark = true ->
  stops post ->
  extractPlaylistId (Some (pre ++ mark :: lit "list=" ++ e ++ post))
  = Returned id.
Proof.
  intros Hid Hne He Hpre Hmark Hpost.
  destruct (encode_alphabet (length id) id e (le_n _) He) as [Hall Hnonempty].
  assert (occurs_at (pre ++ mark :: lit "list=" ++ e ++ post) pre e) as Hocc.
  { exists (mark :: lit "list=" ++ e ++ post). split; [reflexivity|].
    exists mark, post. auto. }
  rewrite extract_nonempty by (destruct pre; discriminate).
  rewrite (list_match_leftmost _ pre e Hocc).
  - apply (decode_encode (length id) id e (le_n _) Hid He).
  - intros pre' g' (suffix & Heq & c & post' & -> & Hc & _).
    exact (unmarked_prefix_leftmost _ _ _ _ _ Hpre Heq Hc).
Qed.

Lemma encoded_list_parameter_round_trip_witness :
  extractPlaylistId
    (Some (lit "https://www.youtube.com/playlist?list=PL%20a%26b%E2%82%AC&index=2"))
  = Returned (lit "PL a&b" ++ [8364%N]).
Proof.
  apply (encoded_list_parameter_round_trip
           (lit "PL a&b" ++ [8364%N]) (lit "PL%20a%26b%E2%82%AC")
           (lit "https://www.youtube.com/playlist") (lit "&index=2") 63%N).
  - repeat constructor.
  - discriminate.
  - vm_compute. reflexivity.
  - reflexivity.
  - reflexivity.
  - reflexivity.
Defined.

End UriFacts.

(** * The two versions of the playlist fetch *)

Section Versions.
Import Server.

Lemma delete_position it :
  delete "position" (Server.mapped it) = FirstPage.mapped it.
Proof.
  unfold Server.mapped, FirstPage.mapped.
  rewrite delete_insert_ne by discriminate.
  rewrite delete_insert_ne by discriminate.
  rewrite delete_insert_eq, delete_empty. reflexivity.
Qed.

Lemma delete_position_sample :
  delete "position" <$> SAMPLE_PLAYLIST = SAMPLE_PLAYLIST.
Proof.
  unfold SAMPLE_PLAYLIST, sample. cbn [fmap list_fmap].
  repeat (rewrite (delete_id (M := gmap string)) by reflexivity).
  reflexivity.
Qed.

Lemma slice0_prefix {A} (front back : list A) q :
  (inject_Z (Z.of_nat (length front)) <= q)%Q ->
  firstn (length front) (slice0 (front ++ back) (Fin q)) = front.
Proof.
  intros Hq. unfold slice0, ToIntegerOrInfinity, Qtrunc.
  assert (0 <= q)%Q as Hq0.
  { eapply Qle_trans; [|exact Hq]. rewrite <- (Zle_Qle 0). lia. }
  apply Qle_bool_iff in Hq0 as Hb. rewrite Hb.
  assert (Z.of_nat (length front) <= Qfloor q)%Z as Hf.
  { rewrite <- (Qfloor_Z (Z.of_nat (length front))).
    apply Qfloor_resp_le, Hq. }
  destruct (Z.ltb_spec (Qfloor q) 0) as [?|_]; [lia|].
  rewrite firstn_firstn, length_app.
  replace (Init.Nat.min (length front)
             (Z.to_nat (Z.min (Qfloor q) (Z.of_nat (length front + length back)))))
    with (length front) by lia.
  rewrite firstn_app, Nat.sub_diag, firstn_all. cbn. apply app_nil_r.
Qed.

(** X18: the paged fetch begins with what the earlier one-page fetch
    returned.  Against the same upstream, key and playlist id, when the
    earlier version returns a list that is not longer than the target and
    the paged version returns at all, the first records of the paged result,
    with their [position] field removed, are exactly the earlier result, in
    the same order. *)
Theorem paged_fetch_starts_with_first_page
    (axios_get : Upstream) (YOUTUBE_API_KEY : option (list N))
    (playlistId : list N) (q : Q) (fuel : nat) (old new : list Obj) :
  FirstPage.fetchPlaylistItemsFromYouTube axios_get YOUTUBE_API_KEY playlistId
  = Returned old ->
  fetchPlaylistItemsFromYouTube axios_get YOUTUBE_API_KEY playlistId (Fin q)
    fuel = Some (Returned new) ->
  (inject_Z (Z.of_nat (length old)) <= q)%Q ->
  delete "position" <$> firstn (length old) new = old.
Proof.
  unfold FirstPage.fetchPlaylistItemsFromYouTube, fetchPlaylistItemsFromYouTube.
  assert (forall l : list Obj,
             l = SAMPLE_PLAYLIST ->
             delete "position" <$> firstn (length l) l = l) as Hsample.
  { intros l ->. rewrite firstn_all. apply delete_position_sample. }
  destruct YOUTUBE_API_KEY as [apiKey|];
    [|intros [= <-] [= <-] _; apply Hsample; reflexivity].
  destruct (truthy apiKey); cbn [negb];
    [|intros [= <-] [= <-] _; apply Hsample; reflexivity].
  destruct (playlistItems_url playlistId [] apiKey) as [url|e] eqn:Eu;
    [|discriminate].
  destruct (axios_get 0%nat url) as [resp|e] eqn:En; [|discriminate].
  intros [= <-] Hnew Hq. rewrite length_map in *.
  destruct (fetch_loop _ _ _ _ _ _ _ _) as [[acc|e]|] eqn:Eloop;
    try discriminate.
  injection Hnew as <-.
  rewrite fetch_loop_unfold in Eloop.
  change (of_nat (length (@nil Obj))) with (of_Z 0) in Eloop.
  destruct (lt (of_Z 0) (Fin q)) eqn:Epos; cbn [negb] in Eloop.
  - assert (exists back, acc = map Server.mapped (items resp) ++ back)
      as [back ->].
    { destruct fuel as [|fuel]; [discriminate|].
      rewrite Eu, En in Eloop. cbv zeta in Eloop. cbn [app] in Eloop.
      destruct (negb (truthy_opt (nextPageToken resp)) || _).
      - injection Eloop as <-. exists []. symmetry. apply app_nil_r.
      - destruct (fetch_loop_pages _ _ _ _ _ _ _ _ _ Eloop) as (n & _ & ->).
        eauto. }
    rewrite <- (length_map Server.mapped (items resp)).
    rewrite slice0_prefix by (rewrite length_map; exact Hq).
    rewrite <- list_fmap_compose. apply list_fmap_ext.
    intros i it _. apply delete_position.
  - injection Eloop as <-. cbn in Epos. apply Qlt_bool_false_iff in Epos.
    assert (length (items resp) = 0%nat) as Hz.
    { assert (inject_Z (Z.of_nat (length (items resp))) <= inject_Z 0)%Q as H
        by (eapply Qle_trans; eassumption).
      rewrite <- Zle_Qle in H. lia. }
    rewrite Hz. destruct (items resp); [reflexivity | discriminate].
Qed.

Lemma paged_fetch_starts_with_first_page_witness :
  delete "position"
    <$> firstn 1 [Server.mapped (item "hTWKbfoikeg" "Smells Like Teen Spirit" 0)]
  = [FirstPage.mapped (item "hTWKbfoikeg" "Smells Like Teen Spirit" 0)].
Proof.
  apply (paged_fetch_starts_with_first_page one_page (Some (lit "key"))
           (lit "PL1") (inject_Z 100) 1
           [FirstPage.mapped (item "hTWKbfoikeg" "Smells Like Teen Spirit" 0)]
           [Server.mapped (item "hTWKbfoikeg" "Smells Like Teen Spirit" 0)]).
  - reflexivity.
  - reflexivity.
  - discriminate.
Defined.

End Versions.
